(** * libpqxx: [pqxx/util.hxx] and [pqxx/result.hxx]

    A shallow embedding of the checked numeric cast, the escaped-binary size
    formulas, the link-time version guard and the reference-counted
    [pqxx::result] handle, followed by the properties proved about them. *)

From Stdlib Require Import ZArith Lia String Ascii.
From stdpp Require Import base option list gmap fin_maps strings.

Local Open Scope Z_scope.

(** The number of entries of a finite map; [size] is below the name of
    [result::size()]. *)
Local Abbreviation card := stdpp.base.size (only parsing).

(** ** Exceptions and outcomes *)

(** The exception classes that the modelled functions throw.  [range_error]
    is thrown by [check_cast] in the source; [IndexError] and [LookupError]
    are the two failures that the specification names for the column
    lookups whose bodies live outside the headers. *)
Inductive exception : Type :=
| range_error (what : string)
| IndexError
| LookupError.

(** A call either returns a value or leaves by throwing. *)
Inductive outcome (A : Type) : Type :=
| Returned (a : A)
| Thrown (e : exception).
Arguments Returned {A} a.
Arguments Thrown {A} e.

#[global] Instance outcome_ret : MRet outcome := fun _ a => Returned a.
#[global] Instance outcome_bind : MBind outcome := fun _ _ f m =>
  match m with
  | Returned a => f a
  | Thrown e => Thrown e
  end.

(** [throw] and the guarded form [if (c) throw e;]. *)
Definition throw {A : Type} (e : exception) : outcome A := Thrown e.
Definition throw_if (c : bool) (e : exception) : outcome unit :=
  if c then throw e else mret tt.

(** ** [pqxx::internal::cat2] *)

Module strbuf.
(** [std::string::resize(n)] on a fresh string: [n] value-initialised
    characters. *)
Fixpoint resize (n : nat) : string :=
  match n with
  | O => EmptyString
  | S n' => String Ascii.zero (resize n')
  end.

(** Overwrite [buf] from offset [pos] on with the characters of [src];
    nothing is written past the end of [buf]. *)
Fixpoint overwrite (buf : string) (pos : nat) (src : string) : string :=
  match buf with
  | EmptyString => EmptyString
  | String b buf' =>
      match pos with
      | S p => String b (overwrite buf' p src)
      | O =>
          match src with
          | EmptyString => buf
          | String c src' => String c (overwrite buf' O src')
          end
      end
  end.

(** [x.copy(data(buf) + dest, count)]: copies the first [count] characters
    of the view [x] to the buffer at offset [dest]. *)
Definition copy (x : string) (buf : string) (dest count : nat) : string :=
  overwrite buf dest (String.substring 0 count x).
End strbuf.

Definition cat2 (x y : string) : string :=
  let buf := EmptyString in
  let xs := String.length x in
  let ys := String.length y in
  let buf := strbuf.resize (xs + ys) in
  let buf := strbuf.copy x buf 0 xs in
  let buf := strbuf.copy y buf xs ys in
  buf.

(** ** Integral types and [std::numeric_limits] *)

(** The integral types [check_cast] is instantiated with: [bool], and the
    signed and unsigned integer types, described by signedness and width in
    bits.  (The [static_assert]s of [check_cast] admit integral pairs and
    floating-point pairs; the integral instantiations are embedded here.) *)
Inductive integral : Type :=
| t_bool
| t_int (sgn : bool) (bits : positive).

Definition schar : integral := t_int true 8.
Definition short : integral := t_int true 16.
Definition int : integral := t_int true 32.
Definition uint : integral := t_int false 32.

(** [std::is_same_v<T, bool>] *)
Definition is_same_bool (T : integral) : bool :=
  match T with t_bool => true | t_int _ _ => false end.

(** [std::is_signed_v<T>] *)
Definition is_signed_v (T : integral) : bool :=
  match T with t_bool => false | t_int sgn _ => sgn end.

(** [std::numeric_limits<T>::lowest()] *)
Definition lowest (T : integral) : Z :=
  match T with
  | t_bool => 0
  | t_int true w => - 2 ^ (Z.pos w - 1)
  | t_int false _ => 0
  end.

(** [std::numeric_limits<T>::max()] *)
Definition limits_max (T : integral) : Z :=
  match T with
  | t_bool => 1
  | t_int true w => 2 ^ (Z.pos w - 1) - 1
  | t_int false w => 2 ^ Z.pos w - 1
  end.

(** [std::make_unsigned_t<T>].  The standard library provides it for the
    integer types only ([make_unsigned_exists] below); on [bool], where the
    source names a type that does not exist, the model leaves the type as
    it is. *)
Definition make_unsigned_t (T : integral) : integral :=
  match T with
  | t_bool => t_bool
  | t_int _ w => t_int false w
  end.

(** [static_cast<T>(v)] between integral types: reduction modulo [2^w] into
    the range of [T] (two's complement for the signed types), and the test
    against zero for [bool]. *)
Definition static_cast (T : integral) (v : Z) : Z :=
  match T with
  | t_bool => if v =? 0 then 0 else 1
  | t_int false w => v mod 2 ^ Z.pos w
  | t_int true w => (v + 2 ^ (Z.pos w - 1)) mod 2 ^ Z.pos w - 2 ^ (Z.pos w - 1)
  end.

(** A value that an object of type [T] can hold. *)
Definition representable (T : integral) (v : Z) : Prop :=
  lowest T <= v <= limits_max T.

(** ** [pqxx::check_cast] *)

(** [check_cast<TO>(value, description)] with [FROM] the type of [value]:
    what the statements of the body do when they run.  Which instantiations
    the header accepts at all is [check_cast_instantiates] below; it accepts
    none with [bool] as [FROM] or [TO], and there this definition only
    follows the statements in their order.
    The comparisons of the source are between operands of equal signedness
    (signed with signed in the underflow tests, unsigned with unsigned in
    the overflow test), so the usual arithmetic conversions keep the
    operands' values and the comparisons are those of [Z]. *)
Definition check_cast (TO FROM : integral) (value : Z) (description : string)
  : outcome Z :=
  if is_same_bool FROM then mret (static_cast TO value)
  else
    _ ← (if is_signed_v FROM then
           if is_signed_v TO then
             throw_if (value <? lowest TO)
               (range_error (cat2 "Cast underflow: " description))
           else
             throw_if (value <? 0)
               (range_error
                  (cat2 "Casting negative value to unsigned type: " description))
         else mret tt);
    _ ← (let unsigned_from := make_unsigned_t FROM in
         let unsigned_to := make_unsigned_t TO in
         let from_max := static_cast unsigned_from (limits_max FROM) in
         let to_max := static_cast unsigned_to (limits_max TO) in
         if from_max >? to_max then
           throw_if (static_cast unsigned_from value >? to_max)
             (range_error (cat2 "Cast overflow: " description))
         else mret tt);
    mret (static_cast TO value).

(** [std::make_unsigned_t<T>] names a type for the integer types; for
    [bool] there is none, and a program that names it is ill-formed. *)
Definition make_unsigned_exists (T : integral) : bool :=
  negb (is_same_bool T).

(** Whether the instantiation [check_cast<TO, FROM>] of two integral types
    is well-formed.  The three [static_assert]s hold for every integral
    pair.  The [return] under [if constexpr (std::is_same_v<FROM, bool>)]
    has no [else], so the statements after it are instantiated for
    [FROM = bool] like for any other type; [if constexpr
    (std::is_integral_v<FROM>)] keeps its first branch for every integral
    [FROM], and that branch names [std::make_unsigned_t<FROM>] and
    [std::make_unsigned_t<TO>]. *)
Definition check_cast_instantiates (TO FROM : integral) : bool :=
  make_unsigned_exists FROM && make_unsigned_exists TO.

(** ** Escaped-binary buffer sizes *)

Section size_t.
(** Width in bits of [std::size_t]; arithmetic on it is modulo [2^w]. *)
Variable w : Z.

Definition size_t_wrap (x : Z) : Z := x mod 2 ^ w.
Definition size_t_add (a b : Z) : Z := size_t_wrap (a + b).
Definition size_t_sub (a b : Z) : Z := size_t_wrap (a - b).
Definition size_t_mul (a b : Z) : Z := size_t_wrap (a * b).
Definition size_t_div (a b : Z) : Z := a / b.

(** A value of type [std::size_t]. *)
Definition is_size_t (x : Z) : Prop := 0 <= x < 2 ^ w.

Definition size_esc_bin (binary_bytes : Z) : Z :=
  size_t_add (size_t_add 2 (size_t_mul 2 binary_bytes)) 1.

Definition size_unesc_bin (escaped_bytes : Z) : Z :=
  size_t_div (size_t_sub escaped_bytes 2) 2.
End size_t.

(** ** [pqxx::check_version] *)

Section version_check.
(** Modelled from the spec: the macro [PQXX_VERSION_CHECK] of
    [pqxx/version.hxx] names the library's version stub; once the program
    has linked against the matching library, calling it returns a value and
    touches nothing else.  [version_stub] is that value. *)
Variable version_stub : Z.

(** The state of the rest of the program, whatever it is. *)
Variable caller_state : Type.

(** A process, as far as [check_version] is concerned: the function-local
    static [version_ok] ([None] until its initialiser has run), the number
    of times the initialiser expression has been evaluated, and everything
    else. *)
Record process : Type := Process {
  version_ok : option Z;
  evaluations : nat;
  visible : caller_state
}.

(** A process in which [check_version] has not been called yet. *)
Definition process_start (s : caller_state) : process :=
  {| version_ok := None; evaluations := O; visible := s |}.

(** [static auto const version_ok{internal::PQXX_VERSION_CHECK()};]: the
    initialiser runs on the first execution of the definition only.  The
    function returns [void]. *)
Definition check_version (p : process) : outcome unit * process :=
  match version_ok p with
  | Some _ => (Returned tt, p)
  | None =>
      (Returned tt,
       {| version_ok := Some version_stub;
          evaluations := S (evaluations p);
          visible := visible p |})
  end.

(** [k] calls in a row; a call that throws ends the run. *)
Fixpoint check_version_times (k : nat) (p : process) : outcome unit * process :=
  match k with
  | O => (Returned tt, p)
  | S k' =>
      match check_version p with
      | (Returned _, p') => check_version_times k' p'
      | (Thrown e, p') => (Thrown e, p')
      end
  end.
End version_check.

Arguments version_ok {caller_state} p.
Arguments evaluations {caller_state} p.
Arguments visible {caller_state} p.
Arguments process_start {caller_state} s.
Arguments check_version version_stub {caller_state} p.
Arguments check_version_times version_stub {caller_state} k p.

(** ** The result buffer *)

(** Modelled from the spec: [pqxx::oid], [row_size_type] and
    [result_size_type] of [pqxx/types.hxx] are integer types. *)
Definition oid : Type := Z.
Definition row_size_type : Type := Z.
Definition size_type : Type := Z.

(** Modelled from the spec: the encoding tag of [pqxx/internal/encodings.hxx];
    [MONOBYTE] is the one the default constructor names. *)
Inductive encoding_group : Type :=
| MONOBYTE
| encoding (tag : nat).

(** Modelled from the spec: the column metadata of a result buffer, keyed by
    column number: name, type identifier, source table, source-table column. *)
Record column : Type := Column {
  name : string;
  type : oid;
  table : oid;
  table_col : row_size_type
}.

(** Modelled from the spec: the opaque, immutable buffer [pq::PGresult] that
    the engine hands over: its columns and its rows of nullable fields. *)
Record PGresult : Type := Buffer {
  fields : list column;
  tuples : list (list (option string))
}.

(** ** [std::shared_ptr] *)

(** A control block: the stored pointer (possibly null; the pointee is
    immutable and stands for the pointer to it) and the number of
    [shared_ptr]s that own the block.  A [shared_ptr] is [None] when it is
    empty and [Some b] when it shares control block [b]. *)
Record control_block (A : Type) : Type := ControlBlock {
  managed : option A;
  use_count : nat
}.
Arguments ControlBlock {A} managed use_count.
Arguments managed {A} c.
Arguments use_count {A} c.

Section shared_ptr.
Context {A : Type}.

(** [p.get()] *)
Definition sp_get (blocks : gmap nat (control_block A)) (p : option nat)
  : option A :=
  b ← p; cb ← blocks !! b; managed cb.

(** [shared_ptr{ptr, deleter}]: a new control block, owned once, also for a
    null [ptr]. *)
Definition sp_new (blocks : gmap nat (control_block A)) (ptr : option A)
  : gmap nat (control_block A) * option nat :=
  let b := fresh (dom blocks) in
  (<[b := ControlBlock ptr 1]> blocks, Some b).

(** Copy construction: one more owner. *)
Definition sp_copy (blocks : gmap nat (control_block A)) (p : option nat)
  : gmap nat (control_block A) :=
  match p with
  | None => blocks
  | Some b => alter (λ cb, ControlBlock (managed cb) (S (use_count cb))) b blocks
  end.

(** Giving up ownership ([reset()], assignment of [nullptr], destruction).
    The second component is [Some ptr] when this was the last owner, so that
    the deleter is to be called on the stored pointer [ptr]. *)
Definition sp_release (blocks : gmap nat (control_block A)) (p : option nat)
  : gmap nat (control_block A) * option (option A) :=
  match p with
  | None => (blocks, None)
  | Some b =>
      match blocks !! b with
      | None => (blocks, None)
      | Some cb =>
          match use_count cb with
          | S (S n) => (<[b := ControlBlock (managed cb) (S n)]> blocks, None)
          | _ => (delete b blocks, Some (managed cb))
          end
      end
  end.
End shared_ptr.

(** ** [pqxx::result] *)

(** The data members of a [result]. *)
Record result : Type := Result {
  m_data : option nat;
  m_query : option nat;
  m_encoding : encoding_group
}.

(** The program state that [result] objects live in: the live [result]
    objects by address, the control blocks of the data pointers and of the
    query pointers, and the calls made so far to the cleanup callback
    [internal::clear_result], latest first, each with its argument. *)
Record program_state : Type := State {
  results : gmap nat result;
  data_blocks : gmap nat (control_block PGresult);
  query_blocks : gmap nat (control_block string);
  cleared : list (option PGresult)
}.

(** Member functions run in the state and may throw. *)
Definition M (A : Type) : Type := program_state → outcome A * program_state.

Definition M_ret {A : Type} (a : A) : M A := fun st => (Returned a, st).

(** Sequencing: an exception thrown by [m] leaves with the state at the
    throw, and [f] does not run. *)
Definition M_bind {A B : Type} (m : M A) (f : A → M B) : M B :=
  fun st =>
    match m st with
    | (Returned a, st') => f a st'
    | (Thrown e, st') => (Thrown e, st')
    end.

Notation "'let!' x ':=' m 'in' k" := (M_bind m (fun x => k))
  (at level 10, x name, m at level 100, k at level 200, only parsing).

Definition M_throw {A : Type} (e : exception) : M A := fun st => (Thrown e, st).

(** Modelled from the spec: [internal::clear_result], the cleanup callback
    registered with every data pointer; it releases the buffer it is given.
    The model records the call. *)
Definition clear_result (ptr : option PGresult) (st : program_state)
  : program_state :=
  State (results st) (data_blocks st) (query_blocks st) (ptr :: cleared st).

(** Run the deleter of a data pointer if [sp_release] asked for it. *)
Definition run_deleter (dead : option (option PGresult)) (st : program_state)
  : program_state :=
  match dead with
  | Some ptr => clear_result ptr st
  | None => st
  end.

(** [result::make_data_pointer(res)]: [data_pointer{res, clear_result}]. *)
Definition make_data_pointer (res : option PGresult) : M (option nat) :=
  fun st =>
    let '(blocks, p) := sp_new (data_blocks st) res in
    (Returned p, State (results st) blocks (query_blocks st) (cleared st)).

(** [result::result()] constructing the object at address [this]. *)
Definition result_default (this : nat) : M unit :=
  let! p := make_data_pointer None in
  fun st =>
    (Returned tt,
     State (<[this := Result p None MONOBYTE]> (results st))
       (data_blocks st) (query_blocks st) (cleared st)).

(** [result::result(result const &rhs)], defaulted: member-wise copy, at
    address [this]. *)
Definition result_copy (this : nat) (rhs : result) : M unit :=
  fun st =>
    (Returned tt,
     State (<[this := Result (m_data rhs) (m_query rhs) (m_encoding rhs)]> (results st))
       (sp_copy (data_blocks st) (m_data rhs))
       (sp_copy (query_blocks st) (m_query rhs))
       (cleared st)).

(** Giving up the two pointers of the object [R]: what [clear()] and the
    destructor have in common. *)
Definition release_members (R : result) (st : program_state) : program_state :=
  let '(dblocks, dead) := sp_release (data_blocks st) (m_data R) in
  let st := run_deleter dead
              (State (results st) dblocks (query_blocks st) (cleared st)) in
  let '(qblocks, _) := sp_release (query_blocks st) (m_query R) in
  State (results st) (data_blocks st) qblocks (cleared st).

(** [result::clear()]: [m_data.reset(); m_query = nullptr;].  A call on an
    address that holds no live object has no defined behaviour; the model
    leaves the state as it is. *)
Definition clear (this : nat) : M unit :=
  fun st =>
    match results st !! this with
    | None => (Returned tt, st)
    | Some R =>
        let st := release_members R st in
        (Returned tt,
         State (<[this := Result None None (m_encoding R)]> (results st))
           (data_blocks st) (query_blocks st) (cleared st))
    end.

(** [result::~result()], implicit: the members are destroyed and the object
    at [this] is gone. *)
Definition result_destroy (this : nat) : M unit :=
  fun st =>
    match results st !! this with
    | None => (Returned tt, st)
    | Some R =>
        let st := release_members R st in
        (Returned tt,
         State (delete this (results st))
           (data_blocks st) (query_blocks st) (cleared st))
    end.

(** [m_data.get()]: the buffer this result refers to, if any. *)
Definition buffer_of (R : result) : M (option PGresult) :=
  fun st => (Returned (sp_get (data_blocks st) (m_data R)), st).

(** Modelled from the spec: [result::size()], whose body is outside the
    header: the row count of the buffer, [0] for a result without one; no
    side effects. *)
Definition size (R : result) : M size_type :=
  let! buf := buffer_of R in
  match buf with
  | Some b => M_ret (Z.of_nat (length (tuples b)))
  | None => M_ret 0
  end.

(** [result::capacity()]: [return size();] *)
Definition capacity (R : result) : M size_type := size R.

(** Number of the first column named [s] among [cols], counting from [n]:
    an exact, case-sensitive comparison of the names. *)
Fixpoint find_column (s : string) (cols : list column) (n : Z) : option Z :=
  match cols with
  | [] => None
  | c :: cols' =>
      if String.eqb (name c) s then Some n else find_column s cols' (n + 1)
  end.

(** Modelled from the spec: [result::column_number(name)], whose body is
    outside the header: the number of the column with exactly that name;
    fails with LookupError if there is none. *)
Definition column_number (R : result) (s : string) : M row_size_type :=
  let! buf := buffer_of R in
  match buf ≫= (λ b, find_column s (fields b) 0) with
  | Some n => M_ret n
  | None => M_throw LookupError
  end.

(** The metadata of column [col_num]; fails with IndexError when the number
    is out of range. *)
Definition column_at (R : result) (col_num : row_size_type) : M column :=
  let! buf := buffer_of R in
  match buf ≫= (λ b, if col_num <? 0 then None
                     else fields b !! Z.to_nat col_num) with
  | Some c => M_ret c
  | None => M_throw IndexError
  end.

(** Modelled from the spec: the metadata lookups by column number, whose
    bodies are outside the header; each fails with IndexError when the
    number is out of range. *)
Definition column_type (R : result) (col_num : row_size_type) : M oid :=
  let! c := column_at R col_num in M_ret (type c).

Definition column_table (R : result) (col_num : row_size_type) : M oid :=
  let! c := column_at R col_num in M_ret (table c).

Definition table_column (R : result) (col_num : row_size_type)
  : M row_size_type :=
  let! c := column_at R col_num in M_ret (table_col c).

(** The overloads taking a column name ([zview]), from the header. *)
Definition column_type_by_name (R : result) (col_name : string) : M oid :=
  let! n := column_number R col_name in column_type R n.

Definition column_table_by_name (R : result) (col_name : string) : M oid :=
  let! n := column_number R col_name in column_table R n.

Definition table_column_by_name (R : result) (col_name : string)
  : M row_size_type :=
  let! n := column_number R col_name in table_column R n.

(** ** Reference counts and owners *)

(** The [result] objects among [rs] whose pointer [proj] ([m_data] or
    [m_query]) shares control block [b]. *)
Definition owners (proj : result → option nat) (b : nat) (rs : gmap nat result)
  : gmap nat result :=
  filter (λ kv, proj kv.2 = Some b) rs.

(** The use count of block [b]; [0] when there is no such block. *)
Definition count_of {A : Type} (blocks : gmap nat (control_block A)) (b : nat)
  : nat :=
  match blocks !! b with
  | Some cb => use_count cb
  | None => O
  end.

(** A consistent state: the use count of a data block is the number of
    [result] objects that refer to it (only [result] objects hold data
    pointers), and the use count of a query block is at least the number of
    [result] objects that refer to it (the query text may have owners
    elsewhere). *)
Definition consistent (st : program_state) : Prop :=
  (∀ b, count_of (data_blocks st) b = card (owners m_data b (results st)))
  ∧ (∀ b, (card (owners m_query b (results st)) ≤ count_of (query_blocks st) b)%nat).

(** The log of cleanup calls once the object [C] has released its data
    pointer. *)
Definition cleared_after (st : program_state) (C : result)
  : list (option PGresult) :=
  match (sp_release (data_blocks st) (m_data C)).2 with
  | Some ptr => ptr :: cleared st
  | None => cleared st
  end.

(** ** A concrete state *)

(** A buffer of two columns and two rows, and a state in which the objects
    at addresses [0] and [1] are copies of each other sharing it. *)
Definition example_buffer : PGresult :=
  Buffer [Column "id" 23 0 1; Column "name" 25 0 2]
         [[Some "1"; None]; [Some "2"; Some "x"]]%string.

Definition example_result : result := Result (Some 0%nat) (Some 0%nat) MONOBYTE.

Definition example_state : program_state :=
  State {[ 0%nat := example_result; 1%nat := example_result ]}
        {[ 0%nat := ControlBlock (Some example_buffer) 2 ]}
        {[ 0%nat := ControlBlock (Some "SELECT id, name FROM t"%string) 2 ]}
        [].

(** ** More of [pqxx/util.hxx] *)

(** A [std::basic_string_view<std::byte>]: where the bytes start, and how
    many there are. *)
Record binary_view : Type := BinaryView {
  view_data : nat;
  view_size : Z
}.

(** [pqxx::binary_cast(CHAR const *data, SIZE size)]: the view that starts
    at [data] and has [check_cast<std::size_t>(size, "binary data size")]
    bytes; [w] is the width of [std::size_t] and [SIZE] the type of
    [size]. *)
Definition binary_cast (w : positive) (SIZE : integral) (data : nat) (sz : Z)
  : outcome binary_view :=
  n ← check_cast (t_int false w) SIZE sz "binary data size";
  mret (BinaryView data n).

(** [std::make_signed_t<T>], on the integer types. *)
Definition make_signed_t (T : integral) : integral :=
  match T with
  | t_bool => t_bool
  | t_int _ w => t_int true w
  end.

(** Which of its two bodies the preprocessor leaves to [ssize], and what
    that body returns: [std_ssize rw] when [__cpp_lib_ssize] is defined and
    the body is [return std::ssize(c);], whose result type
    [std::common_type_t<std::ptrdiff_t, std::make_signed_t<decltype(c.size())>>]
    is the signed type of width [rw]; [own_ssize] otherwise, when the body
    casts to [signed_t], the signed type of the size's own width. *)
Inductive ssize_body : Type :=
| std_ssize (rw : positive)
| own_ssize.

(** The width of the type [ssize] returns, for a size type of width [w]. *)
Definition ssize_width (body : ssize_body) (w : positive) : positive :=
  match body with
  | std_ssize rw => rw
  | own_ssize => w
  end.

(** [pqxx::internal::ssize(c)], for a container whose size is the [w]-bit
    unsigned value [n]: [std::ssize(c)], which casts [c.size()] to its
    result type, or [static_cast<signed_t>(std::size(c))]. *)
Definition ssize (body : ssize_body) (w : positive) (n : Z) : Z :=
  match body with
  | std_ssize rw => static_cast (t_int true rw) n
  | own_ssize => static_cast (make_signed_t (t_int false w)) n
  end.

(** ** More of [pqxx::result] *)

(** [shared_ptr::operator=(shared_ptr const &)], that is
    [shared_ptr(source).swap(target)]: the source gains an owner, then the
    target's old block loses one. *)
Definition sp_assign {A : Type} (blocks : gmap nat (control_block A))
    (target source : option nat)
  : gmap nat (control_block A) * option (option A) :=
  sp_release (sp_copy blocks source) target.

(** [result::operator=(result const &rhs)], defaulted: member-wise copy
    assignment of the object at [rhs] to the object at [this]; the two
    addresses may be the same. *)
Definition result_assign (this rhs : nat) : M unit :=
  fun st =>
    match results st !! this, results st !! rhs with
    | Some C, Some R =>
        let '(dblocks, dead) := sp_assign (data_blocks st) (m_data C) (m_data R) in
        let st := run_deleter dead
                    (State (results st) dblocks (query_blocks st) (cleared st)) in
        let '(qblocks, _) := sp_assign (query_blocks st) (m_query C) (m_query R) in
        (Returned tt,
         State (<[this := Result (m_data R) (m_query R) (m_encoding R)]> (results st))
           (data_blocks st) qblocks (cleared st))
    | _, _ => (Returned tt, st)
    end.

(** [result::operator!]: [m_data.get() == nullptr]. *)
Definition operator_not (R : result) : M bool :=
  let! buf := buffer_of R in
  M_ret (match buf with None => true | Some _ => false end).

(** [result::operator bool]: [m_data.get() != nullptr]. *)
Definition operator_bool (R : result) : M bool :=
  let! buf := buffer_of R in
  M_ret (match buf with None => false | Some _ => true end).

(** [result::query_ptr()]: a copy of [m_query], which the caller then
    owns. *)
Definition query_ptr (R : result) : M (option nat) :=
  fun st =>
    (Returned (m_query R),
     State (results st) (data_blocks st)
       (sp_copy (query_blocks st) (m_query R)) (cleared st)).

(** The caller of [query_ptr()] lets go of the pointer it was given. *)
Definition drop_query_ptr (p : option nat) : M unit :=
  fun st =>
    (Returned tt,
     State (results st) (data_blocks st)
       (sp_release (query_blocks st) p).1 (cleared st)).

(** * Properties *)

(** ** [cat2] is concatenation *)

Lemma resize_plus (a b : nat) :
  strbuf.resize (a + b) = strbuf.resize a +:+ strbuf.resize b.
Proof. induction a as [|a IH]; simpl; [reflexivity | now rewrite IH]. Qed.

Lemma resize_length (n : nat) : String.length (strbuf.resize n) = n.
Proof. induction n as [|n IH]; simpl; [reflexivity | now rewrite IH]. Qed.

Lemma substring_whole (s : string) : String.substring 0 (String.length s) s = s.
Proof. induction s as [|c s IH]; simpl; [reflexivity | now rewrite IH]. Qed.

(** Writing [src] at the front of a buffer replaces exactly the first
    [length src] characters. *)
Lemma overwrite_front (src front rest : string) :
  String.length front = String.length src →
  strbuf.overwrite (front +:+ rest) 0 src = src +:+ rest.
Proof.
  revert front; induction src as [|c src IH]; intros [|b front] Hlen;
    simpl in *; try discriminate.
  - now destruct rest.
  - rewrite IH; [reflexivity | now injection Hlen].
Qed.

(** Writing at offset [length front] leaves [front] alone. *)
Lemma overwrite_skip (front rest src : string) :
  strbuf.overwrite (front +:+ rest) (String.length front) src
  = front +:+ strbuf.overwrite rest 0 src.
Proof.
  induction front as [|b front IH]; simpl.
  - now destruct rest.
  - now rewrite IH.
Qed.

Lemma append_cons (c : ascii) (s t : string) :
  String c s +:+ t = String c (s +:+ t).
Proof. reflexivity. Qed.

Lemma append_empty_r (s : string) : s +:+ EmptyString = s.
Proof.
  induction s as [|c s IH]; [reflexivity | now rewrite append_cons, IH].
Qed.

Lemma cat2_append (x y : string) : cat2 x y = x +:+ y.
Proof.
  unfold cat2, strbuf.copy.
  rewrite !substring_whole, resize_plus.
  rewrite overwrite_front by apply resize_length.
  rewrite overwrite_skip.
  rewrite <- (append_empty_r (strbuf.resize (String.length y))).
  rewrite overwrite_front by apply resize_length.
  now rewrite append_empty_r.
Qed.

(** ** Arithmetic of the integral types *)

Lemma pow2_pos (n : Z) : 0 <= n → 0 < 2 ^ n.
Proof. intros; apply Z.pow_pos_nonneg; lia. Qed.

Lemma pow2_double (w : positive) : 2 ^ Z.pos w = 2 * 2 ^ (Z.pos w - 1).
Proof.
  replace (Z.pos w) with (Z.succ (Z.pos w - 1)) at 1 by lia.
  apply Z.pow_succ_r; lia.
Qed.

Lemma pow2_mono (a b : Z) : 0 <= a <= b → 2 ^ a <= 2 ^ b.
Proof. intros; apply Z.pow_le_mono_r; lia. Qed.

Lemma limits_ordered (T : integral) : lowest T <= 0 ∧ 0 <= limits_max T.
Proof.
  destruct T as [|[] w]; simpl;
    [ lia
    | pose proof (pow2_pos (Z.pos w - 1)); lia
    | pose proof (pow2_pos (Z.pos w)); lia ].
Qed.

(** A representable value is unchanged by a cast to its own type. *)
Lemma static_cast_representable (T : integral) (v : Z) :
  representable T v → static_cast T v = v.
Proof.
  unfold representable; destruct T as [|[] w]; simpl; intros Hv.
  - destruct (Z.eqb_spec v 0); lia.
  - pose proof (pow2_double w).
    rewrite Z.mod_small; lia.
  - apply Z.mod_small; lia.
Qed.

(** The maximum of a type, cast to the unsigned type of the same width. *)
Lemma unsigned_max (T : integral) :
  static_cast (make_unsigned_t T) (limits_max T) = limits_max T.
Proof.
  destruct T as [|[] w]; simpl; [reflexivity | |].
  - pose proof (pow2_double w). pose proof (pow2_pos (Z.pos w - 1)).
    apply Z.mod_small; lia.
  - pose proof (pow2_pos (Z.pos w)). apply Z.mod_small; lia.
Qed.

(** A non-negative value keeps its value in the unsigned type of the same
    width. *)
Lemma unsigned_nonneg (T : integral) (v : Z) :
  representable T v → 0 <= v →
  static_cast (make_unsigned_t T) v = v.
Proof.
  unfold representable; destruct T as [|[] w]; simpl; intros Hv H0.
  - destruct (Z.eqb_spec v 0); lia.
  - pose proof (pow2_double w). apply Z.mod_small; lia.
  - apply Z.mod_small; lia.
Qed.

(** A negative value of a signed type wraps to [v + 2^w] in the unsigned
    type of the same width. *)
Lemma unsigned_negative (w : positive) (v : Z) :
  representable (t_int true w) v → v < 0 →
  static_cast (make_unsigned_t (t_int true w)) v = v + 2 ^ Z.pos w.
Proof.
  unfold representable; simpl; intros Hv H0.
  pose proof (pow2_double w).
  symmetry; apply (Z.mod_unique _ _ (-1)); lia.
Qed.

(** ** [check_cast] *)

(** The three checks of [check_cast] for a source type other than [bool],
    in the order in which the source performs them, with the limits and the
    messages computed. *)
Lemma check_cast_checks (TO FROM : integral) (v : Z) (d : string) :
  is_same_bool FROM = false →
  check_cast TO FROM v d =
    if is_signed_v FROM && is_signed_v TO && (v <? lowest TO)
    then Thrown (range_error ("Cast underflow: " +:+ d))
    else if is_signed_v FROM && negb (is_signed_v TO) && (v <? 0)
    then Thrown (range_error ("Casting negative value to unsigned type: " +:+ d))
    else if (limits_max TO <? limits_max FROM)
            && (limits_max TO <? static_cast (make_unsigned_t FROM) v)
    then Thrown (range_error ("Cast overflow: " +:+ d))
    else Returned (static_cast TO v).
Proof.
  intros Hnb. unfold check_cast. rewrite Hnb, !cat2_append, !unsigned_max.
  rewrite !Z.gtb_ltb.
  destruct (is_signed_v FROM), (is_signed_v TO); cbn [andb negb];
    try destruct (v <? lowest TO); try destruct (v <? 0);
    cbn [throw_if throw mbind outcome_bind mret outcome_ret];
    try reflexivity;
    destruct (limits_max TO <? limits_max FROM);
    try destruct (limits_max TO <? static_cast (make_unsigned_t FROM) v);
    reflexivity.
Qed.

(** Narrowing a negative value between signed types: the value passes the
    underflow test and is then read as [v + 2^w] by the overflow test. *)
Lemma check_cast_signed_narrowing_negative (wt wf : positive) (v : Z) (d : string) :
  (wt < wf)%positive →
  lowest (t_int true wt) <= v < 0 →
  check_cast (t_int true wt) (t_int true wf) v d
  = Thrown (range_error ("Cast overflow: " +:+ d)).
Proof.
  intros Hw Hv.
  assert (Hle : 2 ^ (Z.pos wt - 1) <= 2 ^ (Z.pos wf - 1 - 1))
    by (apply pow2_mono; lia).
  assert (Hd : 2 ^ (Z.pos wf - 1) = 2 * 2 ^ (Z.pos wf - 1 - 1)).
  { replace (Z.pos wf - 1) with (Z.succ (Z.pos wf - 1 - 1)) at 1 by lia.
    apply Z.pow_succ_r; lia. }
  pose proof (pow2_pos (Z.pos wt - 1)) as Hp.
  pose proof (pow2_double wf) as Hf.
  assert (Hrep : representable (t_int true wf) v).
  { unfold representable; simpl in *; lia. }
  rewrite check_cast_checks by reflexivity.
  rewrite (unsigned_negative wf v Hrep) by lia.
  simpl in *.
  destruct (Z.ltb_spec v (- 2 ^ (Z.pos wt - 1))); [lia|].
  destruct (Z.ltb_spec (2 ^ (Z.pos wt - 1) - 1) (2 ^ (Z.pos wf - 1) - 1)); [|lia].
  destruct (Z.ltb_spec (2 ^ (Z.pos wt - 1) - 1) (v + 2 ^ Z.pos wf)); [|lia].
  reflexivity.
Qed.

(** Everywhere else an in-range value is returned unchanged: whenever [v] is
    non-negative, or the cast is not a narrowing between signed types. *)
Lemma check_cast_in_range (TO FROM : integral) (v : Z) (d : string) :
  is_same_bool FROM = false →
  representable FROM v → representable TO v →
  0 <= v ∨ is_signed_v TO = false ∨ limits_max FROM <= limits_max TO →
  check_cast TO FROM v d = Returned v.
Proof.
  intros Hnb Hfrom Hto Hcase.
  rewrite check_cast_checks by assumption.
  rewrite (static_cast_representable TO v Hto).
  pose proof (limits_ordered TO) as [Hlo Hhi].
  unfold representable in *.
  destruct (Z.ltb_spec v (lowest TO)); [lia|]. rewrite andb_false_r.
  assert (Hnonneg : is_signed_v TO = false → 0 <= v)
    by (destruct TO as [|[] wt]; simpl in *; (discriminate || lia)).
  destruct (Z.ltb_spec v 0) as [Hneg|Hge].
  - destruct (is_signed_v TO) eqn:Hs; [|lia].
    rewrite andb_false_r.
    destruct Hcase as [?|[?|Hle]]; [lia | discriminate |].
    destruct (Z.ltb_spec (limits_max TO) (limits_max FROM)); [lia|].
    reflexivity.
  - rewrite andb_false_r, unsigned_nonneg by (unfold representable; lia).
    destruct (Z.ltb_spec (limits_max TO) v); [lia|].
    now rewrite andb_false_r.
Qed.

(** C1: an in-range value is to be returned unchanged by [check_cast], also a
    negative one narrowed between signed types.  The code instead rejects
    [check_cast<short>(int{-1}, "n")]: [-1] lies within [short] and within
    [int], yet the call throws [range_error] with the overflow message. *)
Theorem check_cast_short_of_int_minus_one :
  representable short (-1) ∧ representable int (-1) ∧
  static_cast short (-1) = -1 ∧
  check_cast short int (-1) "n" = Thrown (range_error "Cast overflow: n").
Proof.
  split; [unfold representable; simpl; lia|].
  split; [unfold representable; simpl; lia|].
  split; [reflexivity|].
  apply (check_cast_signed_narrowing_negative 16 32 (-1) "n"); [reflexivity|].
  simpl; lia.
Qed.

(** C2, as stated, fails: with [FROM = int] and [TO = signed char] the value
    [-200] does not exceed the maximum of [TO], yet the call fails with a
    [range_error], and its message is the underflow one. *)
Lemma check_cast_range_error_below_minimum :
  is_same_bool int = false ∧
  limits_max int > limits_max schar ∧
  representable int (-200) ∧
  check_cast schar int (-200) "n" = Thrown (range_error "Cast underflow: n") ∧
  ¬ (((∃ what, check_cast schar int (-200) "n" = Thrown (range_error what))
      ↔ -200 > limits_max schar)
     ∧ (∀ e, check_cast schar int (-200) "n" = Thrown e →
             e = range_error ("Cast overflow: " +:+ "n"))).
Proof.
  split; [reflexivity|]. split; [reflexivity|].
  split; [unfold representable; simpl; lia|].
  assert (Hrun : check_cast schar int (-200) "n"
                 = Thrown (range_error "Cast underflow: n")) by reflexivity.
  split; [exact Hrun|].
  intros [[Hfail _] _].
  assert (Hgt : -200 > limits_max schar) by (apply Hfail; eauto).
  simpl in Hgt; lia.
Qed.

(** C2 (amended): when [maximum(FROM) > maximum(TO)] and [v] is a
    non-negative value of [FROM], the overflow test reads [v] unchanged in
    the unsigned type of [FROM]'s width, the call fails exactly when [v]
    exceeds [maximum(TO)], and the failure is the [range_error] whose message
    is "Cast overflow: " followed by the description.  A [v] below the
    minimum of [TO] fails with a [range_error] as well, with the underflow
    message for a signed [TO] and the negative-value message for an unsigned
    one. *)
Theorem check_cast_overflow (TO FROM : integral) (v : Z) (d : string) :
  is_same_bool FROM = false →
  limits_max FROM > limits_max TO →
  representable FROM v →
  (0 <= v → static_cast (make_unsigned_t FROM) v = v) ∧
  (0 <= v → limits_max TO < v →
   check_cast TO FROM v d = Thrown (range_error ("Cast overflow: " +:+ d))) ∧
  (0 <= v → v <= limits_max TO → check_cast TO FROM v d = Returned v) ∧
  (is_signed_v TO = true → v < lowest TO →
   check_cast TO FROM v d = Thrown (range_error ("Cast underflow: " +:+ d))) ∧
  (is_signed_v TO = false → v < 0 →
   check_cast TO FROM v d
   = Thrown (range_error ("Casting negative value to unsigned type: " +:+ d))).
Proof.
  intros Hnb Hmax Hrep.
  pose proof (limits_ordered TO) as [Hlo Hhi].
  assert (Hsigned : v < 0 → is_signed_v FROM = true).
  { unfold representable in Hrep.
    destruct FROM as [|[] wf]; simpl in *; [lia | reflexivity | lia]. }
  rewrite check_cast_checks by assumption.
  split; [intros Hv; now apply unsigned_nonneg|].
  split; [|split; [|split]].
  - intros Hv Hgt. rewrite unsigned_nonneg by assumption.
    destruct (Z.ltb_spec v (lowest TO)); [lia|].
    destruct (Z.ltb_spec v 0); [lia|].
    destruct (Z.ltb_spec (limits_max TO) (limits_max FROM)); [|lia].
    destruct (Z.ltb_spec (limits_max TO) v); [|lia].
    now rewrite !andb_false_r.
  - intros Hv Hle. rewrite unsigned_nonneg by assumption.
    destruct (Z.ltb_spec v (lowest TO)); [lia|].
    destruct (Z.ltb_spec v 0); [lia|].
    destruct (Z.ltb_spec (limits_max TO) v); [lia|].
    rewrite !andb_false_r.
    rewrite static_cast_representable by (unfold representable; lia).
    reflexivity.
  - intros Hs Hlt. rewrite Hs, Hsigned by lia.
    destruct (Z.ltb_spec v (lowest TO)); [reflexivity | lia].
  - intros Hs Hlt. rewrite Hs, Hsigned by lia.
    destruct (Z.ltb_spec v 0); [reflexivity | lia].
Qed.

Lemma check_cast_overflow_witness :
  check_cast schar int 128 "n" = Thrown (range_error "Cast overflow: n")
  ∧ check_cast schar int 127 "n" = Returned 127.
Proof.
  assert (Hrep : ∀ v, 0 <= v <= 128 → representable int v)
    by (unfold representable; simpl; lia).
  split.
  - apply (check_cast_overflow schar int 128 "n");
      [reflexivity | reflexivity | apply Hrep; lia | lia | simpl; lia].
  - apply (check_cast_overflow schar int 127 "n");
      [reflexivity | reflexivity | apply Hrep; lia | lia | simpl; lia].
Defined.

(** C3: a negative value of a signed type cast to an unsigned type fails with
    [range_error], the message being "Casting negative value to unsigned
    type: " followed by the description; so does [-1] in particular. *)
Theorem check_cast_negative_to_unsigned (TO FROM : integral) (v : Z) (d : string) :
  is_signed_v FROM = true →
  is_signed_v TO = false →
  v < 0 →
  check_cast TO FROM v d
  = Thrown (range_error ("Casting negative value to unsigned type: " +:+ d)).
Proof.
  intros Hf Ht Hv.
  rewrite check_cast_checks by (destruct FROM; [discriminate | reflexivity]).
  rewrite Hf, Ht. cbn [andb negb].
  destruct (Z.ltb_spec v 0); [reflexivity | lia].
Qed.

Lemma check_cast_negative_to_unsigned_witness :
  check_cast uint int (-1) "n"
  = Thrown (range_error "Casting negative value to unsigned type: n").
Proof.
  apply (check_cast_negative_to_unsigned uint int (-1) "n");
    [reflexivity | reflexivity | lia].
Defined.

(** C8: a [bool] source is to be cast at once, without any check, as the
    comment in the body says.  The header instead rejects every
    instantiation with [FROM = bool]: the early [return] does not discard
    the rest of the body, which names [std::make_unsigned_t<bool>].  So
    [check_cast<int>(true, "n")] does not compile, while the integer
    instantiations do. *)
Theorem check_cast_bool_source_rejected :
  check_cast_instantiates int t_bool = false
  ∧ (∀ TO, check_cast_instantiates TO t_bool = false)
  ∧ (∀ TO FROM, check_cast_instantiates TO FROM = true →
                is_same_bool FROM = false ∧ is_same_bool TO = false)
  ∧ check_cast_instantiates short int = true.
Proof.
  split; [reflexivity|]. split; [reflexivity|]. split; [|reflexivity].
  intros TO FROM. unfold check_cast_instantiates, make_unsigned_exists.
  destruct (is_same_bool FROM), (is_same_bool TO); simpl;
    (discriminate || now split).
Qed.

(** ** Escaped-binary buffer sizes *)

Lemma size_esc_bin_mod (w n : Z) :
  size_esc_bin w n = (2 + 2 * n + 1) mod 2 ^ w.
Proof.
  unfold size_esc_bin, size_t_add, size_t_mul, size_t_wrap.
  rewrite Zplus_mod_idemp_l.
  replace (2 + (2 * n) mod 2 ^ w + 1) with (3 + (2 * n) mod 2 ^ w) by lia.
  rewrite Zplus_mod_idemp_r. f_equal; lia.
Qed.

Lemma size_unesc_esc_mod (w n : Z) :
  size_unesc_bin w (size_esc_bin w n) = ((2 * n + 1) mod 2 ^ w) / 2.
Proof.
  rewrite size_esc_bin_mod.
  unfold size_unesc_bin, size_t_sub, size_t_div, size_t_wrap.
  rewrite Zminus_mod_idemp_l. do 2 f_equal. lia.
Qed.

Lemma pow2_half (w : Z) : 1 <= w → 2 ^ w = 2 * 2 ^ (w - 1).
Proof.
  intros Hw. replace w with (Z.succ (w - 1)) at 1 by lia.
  apply Z.pow_succ_r; lia.
Qed.

(** C4, as stated, fails: with a 64-bit [std::size_t] the length [2^63] is
    representable, but its escaped size wraps around to [3] and the way back
    gives [0]. *)
Lemma size_unesc_esc_wraps :
  is_size_t 64 (2 ^ 63) ∧
  size_esc_bin 64 (2 ^ 63) = 3 ∧
  size_unesc_bin 64 (size_esc_bin 64 (2 ^ 63)) = 0 ∧
  size_unesc_bin 64 (size_esc_bin 64 (2 ^ 63)) ≠ 2 ^ 63.
Proof.
  split; [unfold is_size_t; lia|].
  split; [reflexivity|].
  split; [reflexivity|].
  assert (H : size_unesc_bin 64 (size_esc_bin 64 (2 ^ 63)) = 0) by reflexivity.
  rewrite H; lia.
Qed.

(** C4 (amended): [size_unesc_bin(size_esc_bin(n)) == n] for every [n] below
    [2^(w-1)], half the range of a [w]-bit [std::size_t]. *)
Theorem size_unesc_esc_roundtrip (w n : Z) :
  2 <= w →
  0 <= n < 2 ^ (w - 1) →
  size_unesc_bin w (size_esc_bin w n) = n.
Proof.
  intros Hw Hn.
  rewrite size_unesc_esc_mod, Z.mod_small by (rewrite (pow2_half w); lia).
  replace (2 * n + 1) with (1 + n * 2) by lia.
  rewrite Z.div_add by lia. reflexivity.
Qed.

Lemma size_unesc_esc_roundtrip_witness :
  size_unesc_bin 64 (size_esc_bin 64 (2 ^ 63 - 1)) = 2 ^ 63 - 1.
Proof. apply (size_unesc_esc_roundtrip 64 (2 ^ 63 - 1)); simpl; lia. Defined.

(** C10: [size_unesc_bin] is defined on every [std::size_t] value [e] and
    returns [((e - 2) mod 2^w) / 2], again a [std::size_t] value; for [e < 2]
    the subtraction wraps and the result is [2^(w-1) - 1], and
    [size_unesc_bin(0) = (2^w - 2) / 2]. *)
Theorem size_unesc_bin_total (w e : Z) :
  2 <= w →
  is_size_t w e →
  size_unesc_bin w e = ((e - 2) mod 2 ^ w) / 2
  ∧ is_size_t w (size_unesc_bin w e)
  ∧ (e < 2 → size_unesc_bin w e = 2 ^ (w - 1) - 1)
  ∧ size_unesc_bin w 0 = (2 ^ w - 2) / 2.
Proof.
  intros Hw [He0 Hew].
  pose proof (pow2_half w ltac:(lia)) as Hhalf.
  pose proof (pow2_pos (w - 1) ltac:(lia)) as Hpos.
  assert (Hwrap : ∀ x, -2 <= x < 0 → x mod 2 ^ w = 2 ^ w + x).
  { intros x Hx. symmetry; apply (Z.mod_unique _ _ (-1)); lia. }
  unfold size_unesc_bin, size_t_sub, size_t_div, size_t_wrap, is_size_t.
  split; [reflexivity|]. split; [|split].
  - pose proof (Z.mod_pos_bound (e - 2) (2 ^ w) ltac:(lia)) as Hb.
    split; [apply Z.div_pos; lia|].
    apply Z.div_lt_upper_bound; lia.
  - intros Hlt. rewrite Hwrap by lia.
    symmetry; apply Z.div_unique with (r := e); lia.
  - rewrite Hwrap by lia. reflexivity.
Qed.

Lemma size_unesc_bin_total_witness :
  size_unesc_bin 64 0 = (2 ^ 64 - 2) / 2 ∧ size_unesc_bin 64 1 = 2 ^ 63 - 1.
Proof.
  assert (H0 : is_size_t 64 0) by (unfold is_size_t; lia).
  assert (H1 : is_size_t 64 1) by (unfold is_size_t; lia).
  destruct (size_unesc_bin_total 64 0 ltac:(lia) H0) as (_ & _ & _ & Hzero).
  destruct (size_unesc_bin_total 64 1 ltac:(lia) H1) as (_ & _ & Hone & _).
  split; [exact Hzero | apply Hone; lia].
Defined.

(** ** Shared ownership *)

Lemma two_entries {V : Type} (m : gmap nat V) (r c : nat) (R C : V) :
  m !! r = Some R → m !! c = Some C → r ≠ c → (2 ≤ card m)%nat.
Proof.
  intros Hr Hc Hne.
  assert (Hdel : card (delete r m) = pred (card m))
    by (apply map_size_delete_Some; eauto).
  assert (Hnz : card (delete r m) ≠ O).
  { apply (map_size_ne_0_lookup_2 _ c). rewrite lookup_delete_ne by done. eauto. }
  lia.
Qed.

Section release.
Context {A : Type}.
Variable proj : result → option nat.
Variable rs : gmap nat result.
Variable blocks : gmap nat (control_block A).

Lemma owners_lookup (b o : nat) (O : result) :
  owners proj b rs !! o = Some O ↔ rs !! o = Some O ∧ proj O = Some b.
Proof. unfold owners. now rewrite map_lookup_filter_Some. Qed.

(** Two objects sharing a block are both counted. *)
Lemma shared_count (b r c : nat) (R C : result) :
  (card (owners proj b rs) ≤ count_of blocks b)%nat →
  rs !! r = Some R → rs !! c = Some C → r ≠ c →
  proj R = Some b → proj C = Some b →
  ∃ cb n, blocks !! b = Some cb ∧ use_count cb = S (S n).
Proof.
  intros Hcount Hr Hc Hne HR HC.
  assert (H2 : (2 ≤ card (owners proj b rs))%nat).
  { apply (two_entries _ r c R C); [| |done]; now apply owners_lookup. }
  unfold count_of in Hcount. destruct (blocks !! b) as [cb|]; [|lia].
  destruct (use_count cb) as [|[|n]] eqn:Hn; [lia | lia |].
  now exists cb, n.
Qed.

(** Releasing one owner's pointer leaves what every other owner's pointer
    refers to as it was. *)
Lemma release_frame (r c : nat) (R C : result) :
  (∀ b, (card (owners proj b rs) ≤ count_of blocks b)%nat) →
  rs !! r = Some R → rs !! c = Some C → r ≠ c →
  sp_get (sp_release blocks (proj C)).1 (proj R) = sp_get blocks (proj R).
Proof.
  intros Hcount Hr Hc Hne. unfold sp_release.
  destruct (proj C) as [b|] eqn:HC; [|reflexivity].
  destruct (blocks !! b) as [cb|] eqn:Hb; [|reflexivity].
  destruct (proj R) as [b'|] eqn:HR; [|reflexivity].
  destruct (decide (b' = b)) as [->|Hbb].
  - destruct (shared_count b r c R C (Hcount b) Hr Hc Hne HR HC)
      as (cb' & n & Hb' & Hn).
    rewrite Hb in Hb'. injection Hb' as <-. rewrite Hn. simpl.
    now rewrite lookup_insert_eq, Hb.
  - destruct (use_count cb) as [|[|n]]; simpl.
    + now rewrite lookup_delete_ne.
    + now rewrite lookup_delete_ne.
    + now rewrite lookup_insert_ne.
Qed.

(** While another object shares the block, the deleter is not called. *)
Lemma release_shared (r c : nat) (R C : result) :
  (∀ b, (card (owners proj b rs) ≤ count_of blocks b)%nat) →
  rs !! r = Some R → rs !! c = Some C → r ≠ c →
  proj C = proj R →
  (sp_release blocks (proj C)).2 = None.
Proof.
  intros Hcount Hr Hc Hne Heq. unfold sp_release.
  destruct (proj C) as [b|] eqn:HC; [|reflexivity].
  destruct (blocks !! b) as [cb|] eqn:Hb; [|reflexivity].
  destruct (shared_count b r c R C (Hcount b) Hr Hc Hne (eq_sym Heq) HC)
    as (cb' & n & Hb' & Hn).
  rewrite Hb in Hb'. injection Hb' as <-. now rewrite Hn.
Qed.

(** The deleter is called only for the last owner, and on the stored pointer
    of the block. *)
Lemma release_deleter_last (c : nat) (C : result) (ptr : option A) :
  (∀ b, (card (owners proj b rs) ≤ count_of blocks b)%nat) →
  rs !! c = Some C →
  (sp_release blocks (proj C)).2 = Some ptr →
  (∃ b cb, proj C = Some b ∧ blocks !! b = Some cb ∧ managed cb = ptr)
  ∧ (∀ o O, rs !! o = Some O → o ≠ c → proj O ≠ proj C).
Proof.
  intros Hcount Hc Hdead. split.
  - unfold sp_release in Hdead.
    destruct (proj C) as [b|]; [|discriminate].
    destruct (blocks !! b) as [cb|] eqn:Hb; [|discriminate].
    exists b, cb. split; [reflexivity|]. split; [exact Hb|].
    destruct (use_count cb) as [|[|n]]; simpl in Hdead; congruence.
  - intros o O Ho Hne Heq.
    rewrite (release_shared o c O C Hcount Ho Hc Hne (eq_sym Heq)) in Hdead.
    discriminate.
Qed.

(** With exact counts, releasing the last owner's pointer does call the
    deleter. *)
Lemma release_last_owner (c b : nat) (C : result) :
  (∀ b, count_of blocks b = card (owners proj b rs)) →
  rs !! c = Some C → proj C = Some b →
  (∀ o O, rs !! o = Some O → o ≠ c → proj O ≠ Some b) →
  ∃ cb, blocks !! b = Some cb
        ∧ sp_release blocks (proj C) = (delete b blocks, Some (managed cb)).
Proof.
  intros Hcount Hc HC Hsole.
  assert (Hown : owners proj b rs = {[c := C]}).
  { apply map_eq; intros o; apply option_eq; intros O.
    rewrite owners_lookup, lookup_singleton_Some. split.
    - intros [Ho HO]. destruct (decide (o = c)) as [->|Hne].
      + split; [reflexivity | congruence].
      + now destruct (Hsole o O Ho Hne).
    - intros [-> <-]. now split. }
  specialize (Hcount b). rewrite Hown, map_size_singleton in Hcount.
  unfold count_of in Hcount. rewrite HC. unfold sp_release.
  destruct (blocks !! b) as [cb|]; [|discriminate].
  exists cb. split; [reflexivity|]. now rewrite Hcount.
Qed.
End release.

(** ** [result::clear()] and the destructor *)

Lemma release_members_state (C : result) (st : program_state) :
  release_members C st
  = State (results st)
      (sp_release (data_blocks st) (m_data C)).1
      (sp_release (query_blocks st) (m_query C)).1
      (cleared_after st C).
Proof.
  unfold release_members, cleared_after.
  destruct (sp_release (data_blocks st) (m_data C)) as [dblocks [ptr|]];
    simpl; destruct (sp_release (query_blocks st) (m_query C)); reflexivity.
Qed.

Lemma clear_state (st : program_state) (c : nat) (C : result) :
  results st !! c = Some C →
  clear c st
  = (Returned tt,
     State (<[c := Result None None (m_encoding C)]> (results st))
       (sp_release (data_blocks st) (m_data C)).1
       (sp_release (query_blocks st) (m_query C)).1
       (cleared_after st C)).
Proof. intros Hc. unfold clear. now rewrite Hc, release_members_state. Qed.

Lemma result_destroy_state (st : program_state) (c : nat) (C : result) :
  results st !! c = Some C →
  result_destroy c st
  = (Returned tt,
     State (delete c (results st))
       (sp_release (data_blocks st) (m_data C)).1
       (sp_release (query_blocks st) (m_query C)).1
       (cleared_after st C)).
Proof. intros Hc. unfold result_destroy. now rewrite Hc, release_members_state. Qed.

(** In a consistent state every owner of a query block is counted, and so
    is every owner of a data block. *)
Lemma consistent_data (st : program_state) :
  consistent st →
  ∀ b, (card (owners m_data b (results st)) ≤ count_of (data_blocks st) b)%nat.
Proof. intros [Hd _] b. now rewrite Hd. Qed.

Lemma consistent_query (st : program_state) :
  consistent st →
  ∀ b, (card (owners m_query b (results st)) ≤ count_of (query_blocks st) b)%nat.
Proof. now intros [_ Hq]. Qed.

(** Either some other object shares block [b], or none does. *)
Lemma other_owner_dec (proj : result → option nat) (rs : gmap nat result)
    (c b : nat) :
  (∃ o O, rs !! o = Some O ∧ o ≠ c ∧ proj O = Some b)
  ∨ (∀ o O, rs !! o = Some O → o ≠ c → proj O ≠ Some b).
Proof.
  destruct (card (delete c (owners proj b rs))) eqn:Hn.
  - right. intros o O Ho Hne HO.
    apply map_size_empty_inv in Hn.
    assert (Hin : delete c (owners proj b rs) !! o = Some O).
    { rewrite lookup_delete_ne by done. now apply owners_lookup. }
    rewrite Hn, lookup_empty in Hin. discriminate.
  - left.
    destruct (map_size_ne_0_lookup_1 (delete c (owners proj b rs)))
      as (o & O & Ho); [lia|].
    apply lookup_delete_Some in Ho as [Hne Ho].
    apply owners_lookup in Ho as [Ho HO].
    exists o, O. auto.
Qed.

(** The cleanup callback runs on release only for the last handle of a
    buffer, and it does run then. *)
Lemma cleanup_only_for_last (st : program_state) (c : nat) (C : result) :
  consistent st →
  results st !! c = Some C →
  (cleared_after st C = cleared st
   ∧ ((m_data C = None)
      ∨ ∃ o O, results st !! o = Some O ∧ o ≠ c ∧ m_data O = m_data C))
  ∨ (∃ b cb, m_data C = Some b ∧ data_blocks st !! b = Some cb
             ∧ cleared_after st C = managed cb :: cleared st
             ∧ ∀ o O, results st !! o = Some O → o ≠ c → m_data O ≠ Some b).
Proof.
  intros Hwf Hc. pose proof (consistent_data st Hwf) as Hcount.
  destruct (m_data C) as [b|] eqn:HC.
  - destruct (other_owner_dec m_data (results st) c b) as [(o & O & Ho & Hne & HO)|Hsole].
    + left. split; [|right; now exists o, O].
      unfold cleared_after.
      rewrite (release_shared m_data (results st) (data_blocks st) o c O C);
        [reflexivity | assumption.. | congruence].
    + right. destruct Hwf as [Hexact _].
      destruct (release_last_owner m_data (results st) (data_blocks st)
                  c b C Hexact Hc HC Hsole) as (cb & Hb & Hrel).
      exists b, cb. split; [reflexivity|]. split; [exact Hb|].
      split; [|exact Hsole].
      unfold cleared_after. now rewrite Hrel.
  - left. split; [|now left].
    unfold cleared_after. now rewrite HC.
Qed.

(** ** The operations keep the state consistent *)

Section counting.
Context {A : Type}.
Variable proj : result → option nat.

Lemma count_of_release (blocks : gmap nat (control_block A)) (p : option nat)
    (b : nat) :
  count_of (sp_release blocks p).1 b
  = if decide (p = Some b) then pred (count_of blocks b) else count_of blocks b.
Proof.
  unfold sp_release, count_of.
  destruct p as [b0|]; [|now rewrite decide_False].
  destruct (blocks !! b0) as [cb|] eqn:Hb0.
  - destruct (decide (Some b0 = Some b)) as [[= ->]|Hne].
    + rewrite Hb0.
      destruct (use_count cb) as [|[|n]]; simpl;
        now rewrite ?lookup_delete_eq, ?lookup_insert_eq.
    + assert (b0 ≠ b) by congruence.
      destruct (use_count cb) as [|[|n]]; simpl;
        now rewrite ?lookup_delete_ne, ?lookup_insert_ne.
  - destruct (decide (Some b0 = Some b)) as [[= ->]|Hne]; [|reflexivity].
    simpl. now rewrite Hb0.
Qed.

Lemma count_of_copy (blocks : gmap nat (control_block A)) (p : option nat)
    (b : nat) :
  count_of (sp_copy blocks p) b
  = if decide (p = Some b)
    then (match blocks !! b with Some _ => S (count_of blocks b) | None => O end)
    else count_of blocks b.
Proof.
  unfold sp_copy, count_of.
  destruct p as [b0|]; [|now rewrite decide_False].
  destruct (decide (Some b0 = Some b)) as [[= ->]|Hne].
  - rewrite lookup_alter_eq. now destruct (blocks !! b).
  - rewrite lookup_alter_ne by congruence. reflexivity.
Qed.

(** Overwriting or removing the object at [c] by one that owns nothing. *)
Lemma owners_drop (rs : gmap nat result) (c b : nat) (C : result) :
  rs !! c = Some C →
  card (owners proj b (delete c rs))
  = if decide (proj C = Some b) then pred (card (owners proj b rs))
    else card (owners proj b rs).
Proof.
  intros Hc. unfold owners. rewrite map_filter_delete.
  case_decide as HC.
  - apply map_size_delete_Some. exists C.
    now apply map_lookup_filter_Some.
  - apply map_size_delete_None. apply map_lookup_filter_None. right.
    intros C' HC'. rewrite Hc in HC'. now injection HC' as <-.
Qed.

Lemma owners_reset (rs : gmap nat result) (c b : nat) (C X : result) :
  rs !! c = Some C → proj X = None →
  card (owners proj b (<[c := X]> rs))
  = if decide (proj C = Some b) then pred (card (owners proj b rs))
    else card (owners proj b rs).
Proof.
  intros Hc HX. rewrite <- (owners_drop rs c b C Hc).
  unfold owners. rewrite map_filter_insert_False; [reflexivity|].
  simpl. now rewrite HX.
Qed.

(** A new object at a free address. *)
Lemma owners_new (rs : gmap nat result) (this b : nat) (X : result) :
  rs !! this = None →
  card (owners proj b (<[this := X]> rs))
  = if decide (proj X = Some b) then S (card (owners proj b rs))
    else card (owners proj b rs).
Proof.
  intros Hfree. unfold owners. case_decide as HX.
  - rewrite map_filter_insert_True by done.
    apply map_size_insert_None, map_lookup_filter_None. now left.
  - rewrite map_filter_insert_not' by (done || now rewrite Hfree).
    reflexivity.
Qed.
End counting.

Lemma clear_consistent (st : program_state) (c : nat) :
  consistent st → consistent (clear c st).2.
Proof.
  intros [Hd Hq].
  destruct (results st !! c) as [C|] eqn:Hc.
  - rewrite (clear_state st c C Hc). split; simpl; intros b.
    + rewrite count_of_release, (owners_reset m_data _ c b C) by done.
      rewrite Hd. reflexivity.
    + rewrite count_of_release, (owners_reset m_query _ c b C) by done.
      specialize (Hq b). case_decide; lia.
  - unfold clear. rewrite Hc. now split.
Qed.

Lemma result_destroy_consistent (st : program_state) (c : nat) :
  consistent st → consistent (result_destroy c st).2.
Proof.
  intros [Hd Hq].
  destruct (results st !! c) as [C|] eqn:Hc.
  - rewrite (result_destroy_state st c C Hc). split; simpl; intros b.
    + rewrite count_of_release, (owners_drop m_data _ c b C) by done.
      rewrite Hd. reflexivity.
    + rewrite count_of_release, (owners_drop m_query _ c b C) by done.
      specialize (Hq b). case_decide; lia.
  - unfold result_destroy. rewrite Hc. now split.
Qed.

(** Copy construction at a free address from a live object. *)
Lemma result_copy_consistent (st : program_state) (this r : nat) (rhs : result) :
  consistent st →
  results st !! this = None →
  results st !! r = Some rhs →
  consistent (result_copy this rhs st).2.
Proof.
  intros [Hd Hq] Hfree Hr. unfold result_copy. split; simpl; intros b.
  - rewrite count_of_copy, (owners_new m_data _ this b) by done. simpl.
    case_decide as Hb; [|apply Hd].
    assert (Hpos : card (owners m_data b (results st)) ≠ O).
    { apply (map_size_ne_0_lookup_2 _ r). exists rhs. now apply owners_lookup. }
    specialize (Hd b). unfold count_of in *.
    destruct (data_blocks st !! b); [now rewrite Hd | congruence].
  - rewrite count_of_copy, (owners_new m_query _ this b) by done. simpl.
    case_decide as Hb; [|apply Hq].
    assert (Hpos : card (owners m_query b (results st)) ≠ O).
    { apply (map_size_ne_0_lookup_2 _ r). exists rhs. now apply owners_lookup. }
    specialize (Hq b). unfold count_of in *.
    destruct (query_blocks st !! b); lia.
Qed.

(** Default construction at a free address. *)
Lemma result_default_consistent (st : program_state) (this : nat) :
  consistent st →
  results st !! this = None →
  consistent (result_default this st).2.
Proof.
  intros [Hd Hq] Hfree.
  unfold result_default, M_bind, make_data_pointer, sp_new. simpl.
  set (b0 := fresh (dom (data_blocks st))).
  assert (Hb0 : data_blocks st !! b0 = None).
  { apply not_elem_of_dom, is_fresh. }
  split; simpl; intros b.
  - rewrite (owners_new m_data _ this b) by done. simpl.
    unfold count_of. case_decide as Hb.
    + injection Hb as <-. rewrite lookup_insert_eq. simpl.
      rewrite <- Hd. unfold count_of. now rewrite Hb0.
    + rewrite lookup_insert_ne by congruence. apply Hd.
  - rewrite (owners_new m_query _ this b) by done. simpl. apply Hq.
Qed.

(** The state without any object is consistent. *)
Lemma empty_consistent : consistent (State ∅ ∅ ∅ []).
Proof.
  split; simpl; intros b; unfold owners, count_of;
    rewrite map_filter_empty, map_size_empty, lookup_empty; lia.
Qed.

(** [size()] returns the row count and leaves the state as it is. *)
Lemma size_returns (R : result) (st : program_state) :
  size R st
  = (Returned
       (match sp_get (data_blocks st) (m_data R) with
        | Some b => Z.of_nat (length (tuples b))
        | None => 0
        end),
     st).
Proof.
  unfold size, M_bind, buffer_of. simpl.
  now destruct (sp_get (data_blocks st) (m_data R)).
Qed.

Lemma owners_absent (proj : result → option nat) (rs : gmap nat result) (b : nat) :
  (∀ o O, rs !! o = Some O → proj O ≠ Some b) →
  card (owners proj b rs) = O.
Proof.
  intros Hnone. apply map_size_empty_iff, map_empty. intros o.
  apply eq_None_not_Some. intros [O HO].
  apply owners_lookup in HO as [Ho HO]. now apply (Hnone o O).
Qed.

Lemma example_consistent : consistent example_state.
Proof.
  assert (Hall : ∀ o O, results example_state !! o = Some O → O = example_result).
  { intros o O. simpl. rewrite lookup_insert_Some, lookup_singleton_Some.
    intuition congruence. }
  split; intros [|b].
  - reflexivity.
  - rewrite owners_absent.
    + unfold count_of. simpl. now rewrite lookup_singleton_ne.
    + intros o O HO. now rewrite (Hall o O HO).
  - vm_compute. lia.
  - rewrite owners_absent; [lia|].
    intros o O HO. now rewrite (Hall o O HO).
Qed.

(** C5: [C.clear()] empties [C] alone.  Every other live object [R] keeps its
    members, what its pointers refer to, and its [size()]; while such an [R]
    shares [C]'s buffer the cleanup callback is not called.  The callback is
    called by [clear()], and likewise by the destructor, only when no other
    object refers to the buffer, and then once, on that buffer. *)
Theorem clear_only_own_references (st : program_state) (c : nat) (C : result) :
  consistent st →
  results st !! c = Some C →
  let st' := (clear c st).2 in
  (clear c st).1 = Returned tt
  ∧ results st' !! c = Some (Result None None (m_encoding C))
  ∧ (size (Result None None (m_encoding C)) st').1 = Returned 0
  ∧ (∀ r R, r ≠ c → results st !! r = Some R →
       results st' !! r = Some R
       ∧ sp_get (data_blocks st') (m_data R) = sp_get (data_blocks st) (m_data R)
       ∧ sp_get (query_blocks st') (m_query R)
         = sp_get (query_blocks st) (m_query R)
       ∧ (size R st').1 = (size R st).1
       ∧ (m_data R = m_data C → cleared st' = cleared st))
  ∧ (cleared st' = cleared st
     ∨ ∃ b cb, m_data C = Some b ∧ data_blocks st !! b = Some cb
               ∧ cleared st' = managed cb :: cleared st
               ∧ ∀ o O, results st !! o = Some O → o ≠ c → m_data O ≠ Some b)
  ∧ (cleared (result_destroy c st).2 = cleared st
     ∨ ∃ b cb, m_data C = Some b ∧ data_blocks st !! b = Some cb
               ∧ cleared (result_destroy c st).2 = managed cb :: cleared st
               ∧ ∀ o O, results st !! o = Some O → o ≠ c → m_data O ≠ Some b)
  ∧ consistent st'.
Proof.
  intros Hwf Hc st'.
  pose proof (clear_consistent st c Hwf) as Hwf'. fold st' in Hwf'.
  assert (Hlast : cleared_after st C = cleared st
     ∨ ∃ b cb, m_data C = Some b ∧ data_blocks st !! b = Some cb
               ∧ cleared_after st C = managed cb :: cleared st
               ∧ ∀ o O, results st !! o = Some O → o ≠ c → m_data O ≠ Some b).
  { destruct (cleanup_only_for_last st c C Hwf Hc) as [[Hsame _]|Hrun];
      [now left | now right]. }
  unfold st' in *. rewrite (result_destroy_state st c C Hc).
  rewrite (clear_state st c C Hc) in *. simpl.
  split; [reflexivity|].
  split; [apply lookup_insert_eq|].
  split; [reflexivity|].
  split; [|split; [exact Hlast | split; [exact Hlast | exact Hwf']]].
  intros r R Hne Hr.
  assert (Hdata : sp_get (sp_release (data_blocks st) (m_data C)).1 (m_data R)
                  = sp_get (data_blocks st) (m_data R)).
  { apply (release_frame m_data (results st) _ r c R C); try done.
    now apply consistent_data. }
  split; [now rewrite lookup_insert_ne|].
  split; [exact Hdata|].
  split; [|split].
  - apply (release_frame m_query (results st) _ r c R C); try done.
    now apply consistent_query.
  - rewrite !size_returns. simpl. now rewrite Hdata.
  - intros Hshare. unfold cleared_after.
    rewrite (release_shared m_data (results st) (data_blocks st) r c R C);
      try done.
    now apply consistent_data.
Qed.

Lemma clear_only_own_references_witness :
  consistent example_state
  ∧ results example_state !! 1%nat = Some example_result
  ∧ results (clear 1%nat example_state).2 !! 0%nat = Some example_result
  ∧ (size example_result (clear 1%nat example_state).2).1 = Returned 2
  ∧ cleared (clear 1%nat example_state).2 = [].
Proof.
  split; [exact example_consistent|].
  split; [reflexivity|].
  destruct (clear_only_own_references example_state 1%nat example_result
              example_consistent eq_refl)
    as (_ & _ & _ & Hframe & _).
  destruct (Hframe 0%nat example_result ltac:(lia) eq_refl)
    as (Hobj & _ & _ & Hsize & Hlog).
  split; [exact Hobj|].
  split; [rewrite Hsize; reflexivity|].
  rewrite Hlog; reflexivity.
Defined.

(** Clearing the second of the two handles as well frees the buffer: the
    callback runs once, on the buffer. *)
Example clear_last_handle :
  cleared (clear 0%nat (clear 1%nat example_state).2).2 = [Some example_buffer].
Proof. reflexivity. Qed.

(** ** Column lookups by name *)

Lemma find_column_absent (s : string) (cols : list column) (n : Z) :
  (∀ c, c ∈ cols → name c ≠ s) → find_column s cols n = None.
Proof.
  revert n; induction cols as [|c cols IH]; intros n Hno; [reflexivity|].
  simpl. destruct (String.eqb_spec (name c) s) as [Heq|_].
  - destruct (Hno c); [left | exact Heq].
  - apply IH. intros c' Hc'. apply Hno. now right.
Qed.

(** [column_number] does not change the state. *)
Lemma column_number_pure (R : result) (s : string) (st : program_state) :
  (column_number R s st).2 = st.
Proof.
  unfold column_number, M_bind, buffer_of.
  destruct (sp_get (data_blocks st) (m_data R)) as [buf|]; [|reflexivity].
  simpl. now destruct (find_column s (fields buf) 0).
Qed.

(** C6: each lookup by column name is the lookup by number applied to
    [column_number] of the name: it gives what the lookup by number gives
    when [column_number] returns, and when [column_number] throws, the
    exception leaves the lookup by name.  So when the result has no column
    of exactly that name, the three lookups by name fail with the
    LookupError of [column_number], and the state is as before. *)
Theorem lookups_by_name (R : result) (s : string) (st : program_state) :
  (∀ n st', column_number R s st = (Returned n, st') →
     column_type_by_name R s st = column_type R n st'
     ∧ column_table_by_name R s st = column_table R n st'
     ∧ table_column_by_name R s st = table_column R n st')
  ∧ (∀ e st', column_number R s st = (Thrown e, st') →
       column_type_by_name R s st = (Thrown e, st')
       ∧ column_table_by_name R s st = (Thrown e, st')
       ∧ table_column_by_name R s st = (Thrown e, st'))
  ∧ ((∀ buf c, sp_get (data_blocks st) (m_data R) = Some buf →
               c ∈ fields buf → name c ≠ s) →
     column_number R s st = (Thrown LookupError, st)
     ∧ column_type_by_name R s st = (Thrown LookupError, st)
     ∧ column_table_by_name R s st = (Thrown LookupError, st)
     ∧ table_column_by_name R s st = (Thrown LookupError, st)).
Proof.
  assert (Hthrow : ∀ e st', column_number R s st = (Thrown e, st') →
       column_type_by_name R s st = (Thrown e, st')
       ∧ column_table_by_name R s st = (Thrown e, st')
       ∧ table_column_by_name R s st = (Thrown e, st')).
  { intros e st' Hnum.
    unfold column_type_by_name, column_table_by_name, table_column_by_name,
      M_bind.
    now rewrite Hnum. }
  split; [|split; [exact Hthrow|]].
  - intros n st' Hnum.
    unfold column_type_by_name, column_table_by_name, table_column_by_name,
      M_bind.
    now rewrite Hnum.
  - intros Hno.
    assert (Hnum : column_number R s st = (Thrown LookupError, st)).
    { unfold column_number, M_bind, buffer_of.
      destruct (sp_get (data_blocks st) (m_data R)) as [buf|] eqn:Hbuf;
        [|reflexivity].
      simpl. rewrite find_column_absent; [reflexivity|].
      intros c Hc. now apply (Hno buf c). }
    split; [exact Hnum | now apply Hthrow].
Qed.

Lemma lookups_by_name_witness :
  column_type_by_name example_result "Name" example_state
  = (Thrown LookupError, example_state)
  ∧ column_type_by_name example_result "name" example_state
    = column_type example_result 1 example_state.
Proof.
  destruct (lookups_by_name example_result "Name" example_state)
    as (_ & _ & Habsent).
  destruct (lookups_by_name example_result "name" example_state)
    as (Hpresent & _).
  split.
  - apply Habsent. intros buf c [= <-] Hc.
    apply list_elem_of_In in Hc. simpl in Hc.
    destruct Hc as [<-|[<-|[]]]; discriminate.
  - apply (Hpresent 1 example_state). reflexivity.
Defined.

(** ** [result::capacity()] *)

(** C9: [capacity()] returns what [size()] returns and leaves the state as it
    is, for every result; for one without a buffer (default-constructed, or
    cleared) both are [0]. *)
Theorem capacity_is_size (R : result) (st : program_state) :
  capacity R st = size R st
  ∧ (capacity R st).2 = st
  ∧ (∃ n, (capacity R st).1 = Returned n ∧ (size R st).1 = Returned n)
  ∧ (sp_get (data_blocks st) (m_data R) = None →
     capacity R st = (Returned 0, st))
  ∧ (∀ this, (capacity (Result None None (m_encoding R)) (clear this st).2).1
             = Returned 0)
  ∧ (∀ this R0, results (result_default this st).2 !! this = Some R0 →
       (capacity R0 (result_default this st).2).1 = Returned 0).
Proof.
  split; [reflexivity|].
  unfold capacity. rewrite !size_returns. simpl.
  split; [reflexivity|].
  split; [eexists; split; reflexivity|].
  split; [intros Hnone; now rewrite Hnone|].
  split; [intros this; reflexivity|].
  intros this R0. rewrite size_returns. simpl.
  rewrite lookup_insert_eq. intros [= <-]. simpl.
  now rewrite lookup_insert_eq.
Qed.

(** ** [check_version] *)

(** Once the static has been initialised a call changes nothing. *)
Lemma check_version_initialised (stub : Z) (S : Type) (p : process S) (v : Z) :
  version_ok p = Some v → check_version stub p = (Returned tt, p).
Proof. intros Hv. unfold check_version. now rewrite Hv. Qed.

Lemma check_version_times_initialised (stub : Z) (S : Type) (k : nat)
    (p : process S) (v : Z) :
  version_ok p = Some v → check_version_times stub k p = (Returned tt, p).
Proof.
  intros Hv. induction k as [|k IH]; [reflexivity|].
  simpl. now rewrite (check_version_initialised stub S p v Hv).
Qed.

(** C7: after [k >= 1] calls of [check_version] in a process, every call has
    returned, the version check has been evaluated once, by the first call,
    and the state visible to the caller is what it was; a further call
    changes nothing. *)
Theorem check_version_once (stub : Z) (S : Type) (s : S) (k : nat) :
  (1 ≤ k)%nat →
  check_version_times stub k (process_start s)
  = (Returned tt, {| version_ok := Some stub; evaluations := 1; visible := s |})
  ∧ check_version stub (process_start s)
    = (Returned tt, {| version_ok := Some stub; evaluations := 1; visible := s |})
  ∧ check_version stub (check_version_times stub k (process_start s)).2
    = (Returned tt, (check_version_times stub k (process_start s)).2).
Proof.
  intros Hk. destruct k as [|k]; [lia|].
  assert (Hrun : check_version_times stub (Datatypes.S k) (process_start s)
                 = (Returned tt, {| version_ok := Some stub; evaluations := 1;
                                    visible := s |})).
  { simpl. now apply (check_version_times_initialised stub S k _ stub). }
  split; [exact Hrun|]. split; [reflexivity|].
  rewrite Hrun. reflexivity.
Qed.

Lemma check_version_once_witness :
  check_version_times 0 3 (process_start tt)
  = (Returned tt, {| version_ok := Some 0; evaluations := 1; visible := tt |}).
Proof. apply (check_version_once 0 unit tt 3). lia. Defined.

(** * Further properties *)

(** ** [cat2] and [check_cast] *)

Lemma append_length (x y : string) :
  String.length (x +:+ y) = (String.length x + String.length y)%nat.
Proof.
  induction x as [|c x IH]; [reflexivity|].
  rewrite append_cons. simpl. now rewrite IH.
Qed.

(** X1: [cat2(x, y)] is [x] followed by [y]: the buffer is resized to the two
    lengths together, and the two copies fill it without gap or overlap. *)
Theorem cat2_concatenates (x y : string) :
  cat2 x y = x +:+ y
  ∧ String.length (cat2 x y) = (String.length x + String.length y)%nat
  ∧ cat2 x EmptyString = x
  ∧ cat2 EmptyString y = y.
Proof.
  rewrite !cat2_append. split; [reflexivity|].
  split; [apply append_length|].
  split; [apply append_empty_r | reflexivity].
Qed.

Lemma unsigned_lowest (T : integral) : is_signed_v T = false → lowest T = 0.
Proof. destruct T as [|[] w]; simpl; (discriminate || reflexivity). Qed.

(** A cast that returns gives back its argument, which fits the target. *)
Lemma check_cast_returned (TO FROM : integral) (v r : Z) (d : string) :
  is_same_bool FROM = false →
  representable FROM v →
  check_cast TO FROM v d = Returned r →
  r = v ∧ representable TO v.
Proof.
  intros Hnb Hfrom. rewrite check_cast_checks by assumption.
  pose proof (limits_ordered TO) as [Hlo Hhi].
  pose proof (limits_ordered FROM) as [Hflo Hfhi].
  assert (Hlow_from : is_signed_v FROM = false → 0 <= v).
  { intros Hu. apply unsigned_lowest in Hu. unfold representable in Hfrom. lia. }
  assert (Hrep : lowest TO <= v →
                 (0 <= v → limits_max TO < limits_max FROM → v <= limits_max TO) →
                 representable TO v).
  { intros Hl Hu. unfold representable in *. split; [exact Hl|].
    destruct (Z.lt_ge_cases v 0); [lia|].
    destruct (Z.lt_ge_cases (limits_max TO) (limits_max FROM)); [now apply Hu | lia]. }
  destruct (Z.ltb_spec v (lowest TO)) as [Hunder|Hnounder];
    destruct (Z.ltb_spec v 0) as [Hneg|Hnonneg];
    destruct (is_signed_v FROM) eqn:Hsf; destruct (is_signed_v TO) eqn:Hst;
    cbn [andb negb]; try discriminate;
    try (specialize (Hlow_from eq_refl); lia);
    try (apply unsigned_lowest in Hst; lia).
  all: destruct (Z.ltb_spec (limits_max TO) (limits_max FROM)) as [Hnarrow|Hwide];
    cbn [andb];
    [ destruct (Z.ltb_spec (limits_max TO)
                  (static_cast (make_unsigned_t FROM) v)) as [Hover|Hfit];
      [discriminate|]
    | ].
  all: intros [= <-].
  all: assert (Hto : representable TO v);
    [ apply Hrep; [lia | intros H0 Hn; try lia;
                          rewrite unsigned_nonneg in Hfit by assumption; lia]
    | split; [now apply static_cast_representable | exact Hto] ].
Qed.

(** X2: what [check_cast] returns is the value it was given, and that value
    fits the target type: a cast that returns has lost nothing. *)
Theorem check_cast_sound (TO FROM : integral) (v r : Z) (d : string) :
  is_same_bool FROM = false →
  representable FROM v →
  check_cast TO FROM v d = Returned r →
  r = v ∧ representable TO v ∧ static_cast TO v = v.
Proof.
  intros Hnb Hfrom Hret.
  destruct (check_cast_returned TO FROM v r d Hnb Hfrom Hret) as [Hr Hto].
  split; [exact Hr|]. split; [exact Hto|].
  now apply static_cast_representable.
Qed.

Lemma check_cast_sound_witness :
  check_cast schar int 100 "n" = Returned 100
  ∧ 100 = 100 ∧ representable schar 100 ∧ static_cast schar 100 = 100.
Proof.
  assert (Hrep : representable int 100) by (unfold representable; simpl; lia).
  split; [reflexivity|].
  exact (check_cast_sound schar int 100 100 "n" eq_refl Hrep eq_refl).
Defined.

(** X3: every failure of [check_cast] is a [range_error] whose message is
    one of three fixed prefixes followed by the caller's description, and
    each prefix stands for its own check: underflow only between signed
    types and below the target's minimum, the negative-value message only
    from a signed to an unsigned type and below zero, overflow only when the
    source type's maximum is above the target's. *)
Theorem check_cast_failure (TO FROM : integral) (v : Z) (d : string) (e : exception) :
  check_cast TO FROM v d = Thrown e →
  (e = range_error ("Cast underflow: " +:+ d)
   ∧ is_signed_v FROM = true ∧ is_signed_v TO = true ∧ v < lowest TO)
  ∨ (e = range_error ("Casting negative value to unsigned type: " +:+ d)
     ∧ is_signed_v FROM = true ∧ is_signed_v TO = false ∧ v < 0)
  ∨ (e = range_error ("Cast overflow: " +:+ d)
     ∧ limits_max TO < limits_max FROM
     ∧ limits_max TO < static_cast (make_unsigned_t FROM) v).
Proof.
  intros H. destruct (is_same_bool FROM) eqn:Hnb.
  { destruct FROM; [discriminate H | discriminate Hnb]. }
  rewrite check_cast_checks in H by assumption.
  destruct (is_signed_v FROM) eqn:Hsf, (is_signed_v TO) eqn:Hst;
    cbn [andb negb] in H;
    repeat match type of H with
      | context [?a <? ?b] => destruct (Z.ltb_spec a b); cbn [andb] in H
      end;
    try discriminate H; injection H as <-;
    first [ left; now repeat split
          | right; left; now repeat split
          | right; right; now repeat split ].
Qed.

Lemma check_cast_failure_witness :
  (range_error "Cast overflow: n" = range_error ("Cast underflow: " +:+ "n")
   ∧ is_signed_v uint = true ∧ is_signed_v schar = true ∧ 300 < lowest schar)
  ∨ (range_error "Cast overflow: n"
     = range_error ("Casting negative value to unsigned type: " +:+ "n")
     ∧ is_signed_v uint = true ∧ is_signed_v schar = false ∧ 300 < 0)
  ∨ (range_error "Cast overflow: n" = range_error ("Cast overflow: " +:+ "n")
     ∧ limits_max schar < limits_max uint
     ∧ limits_max schar < static_cast (make_unsigned_t uint) 300).
Proof.
  exact (check_cast_failure schar uint 300 "n" (range_error "Cast overflow: n")
           eq_refl).
Defined.

(** X4: a cast to a type that holds every value of the source type never
    fails and returns the value; the cast of a type to itself is the
    instance [TO = FROM]. *)
Theorem check_cast_widening (TO FROM : integral) (v : Z) (d : string) :
  is_same_bool FROM = false →
  representable FROM v →
  lowest TO <= lowest FROM →
  limits_max FROM <= limits_max TO →
  check_cast TO FROM v d = Returned v.
Proof.
  intros Hnb Hfrom Hlo Hhi.
  apply check_cast_in_range; [assumption | assumption | | now right; right].
  unfold representable in *. lia.
Qed.

Lemma check_cast_widening_witness :
  check_cast int short (-32768) "n" = Returned (-32768)
  ∧ check_cast int int (-1) "n" = Returned (-1).
Proof.
  split.
  - apply (check_cast_widening int short (-32768) "n");
      [reflexivity | unfold representable; simpl; lia | simpl; lia | simpl; lia].
  - apply (check_cast_widening int int (-1) "n");
      [reflexivity | unfold representable; simpl; lia | simpl; lia | simpl; lia].
Defined.

(** ** [binary_cast] *)

(** X5: [binary_cast(data, size)] checks the size on its way to
    [std::size_t]: a negative size fails with the negative-value
    [range_error] naming "binary data size", a size above the maximum of
    [std::size_t] fails with the overflow one, and any other size gives the
    view of that many bytes at [data]. *)
Theorem binary_cast_checks_size (w : positive) (SIZE : integral) (data : nat) (sz : Z) :
  is_same_bool SIZE = false →
  representable SIZE sz →
  (sz < 0 →
   binary_cast w SIZE data sz
   = Thrown (range_error
               "Casting negative value to unsigned type: binary data size"))
  ∧ (2 ^ Z.pos w <= sz →
     binary_cast w SIZE data sz
     = Thrown (range_error "Cast overflow: binary data size"))
  ∧ (0 <= sz < 2 ^ Z.pos w →
     binary_cast w SIZE data sz = Returned (BinaryView data sz)).
Proof.
  intros Hnb Hrep. unfold binary_cast.
  assert (Hsigned : sz < 0 → is_signed_v SIZE = true).
  { intros Hneg. destruct (is_signed_v SIZE) eqn:Hs; [reflexivity|].
    apply unsigned_lowest in Hs. unfold representable in Hrep. lia. }
  split; [|split].
  - intros Hneg. rewrite check_cast_checks, (Hsigned Hneg) by assumption.
    cbn [is_signed_v andb negb].
    destruct (Z.ltb_spec sz 0); [reflexivity | lia].
  - intros Hbig. pose proof (pow2_pos (Z.pos w) ltac:(lia)).
    rewrite check_cast_checks, unsigned_nonneg by (assumption || lia).
    cbn [is_signed_v lowest limits_max andb negb].
    unfold representable in Hrep.
    destruct (Z.ltb_spec sz 0); [lia|].
    destruct (Z.ltb_spec (2 ^ Z.pos w - 1) (limits_max SIZE)); [|lia].
    destruct (Z.ltb_spec (2 ^ Z.pos w - 1) sz); [|lia].
    destruct (is_signed_v SIZE); reflexivity.
  - intros Hfit.
    rewrite check_cast_in_range;
      [reflexivity | assumption | assumption
       | unfold representable; simpl; lia | now left].
Qed.

Lemma binary_cast_checks_size_witness :
  binary_cast 64 int 7 (-1)
  = Thrown (range_error
              "Casting negative value to unsigned type: binary data size")
  ∧ binary_cast 64 int 7 16 = Returned (BinaryView 7 16)
  ∧ binary_cast 16 int 7 65536
    = Thrown (range_error "Cast overflow: binary data size").
Proof.
  assert (Hrep : ∀ v, -1 <= v <= 65536 → representable int v)
    by (unfold representable; simpl; lia).
  destruct (binary_cast_checks_size 64 int 7 (-1) eq_refl (Hrep (-1) ltac:(lia)))
    as (Hneg & _ & _).
  destruct (binary_cast_checks_size 64 int 7 16 eq_refl (Hrep 16 ltac:(lia)))
    as (_ & _ & Hfit).
  destruct (binary_cast_checks_size 16 int 7 65536 eq_refl (Hrep 65536 ltac:(lia)))
    as (_ & Hbig & _).
  split; [apply Hneg; lia|].
  split; [apply Hfit; simpl; lia | apply Hbig; simpl; lia].
Defined.

(** ** Escaped-binary sizes, beyond the round trip *)

(** X6: [size_esc_bin(n)] is the full [2n + 3] bytes exactly for the lengths
    up to [2^(w-1) - 2]; for any longer input the computation wraps and the
    result is too small for the escaped data. *)
Theorem size_esc_bin_exact (w n : Z) :
  2 <= w →
  is_size_t w n →
  (size_esc_bin w n = 2 * n + 3 ↔ n <= 2 ^ (w - 1) - 2)
  ∧ size_esc_bin w n <= 2 * n + 3
  ∧ is_size_t w (size_esc_bin w n).
Proof.
  intros Hw [Hn0 Hn].
  pose proof (pow2_half w ltac:(lia)) as Hhalf.
  pose proof (pow2_pos (w - 1) ltac:(lia)) as Hpos.
  pose proof (Z.mod_pos_bound (2 + 2 * n + 1) (2 ^ w) ltac:(lia)) as Hb.
  rewrite size_esc_bin_mod. unfold is_size_t.
  split; [|split; [|exact Hb]].
  - split.
    + intros Heq. lia.
    + intros Hle. rewrite Z.mod_small; lia.
  - pose proof (Z.mod_le (2 + 2 * n + 1) (2 ^ w) ltac:(lia) ltac:(lia)). lia.
Qed.

Lemma size_esc_bin_exact_witness :
  size_esc_bin 64 5 = 2 * 5 + 3.
Proof.
  destruct (size_esc_bin_exact 64 5 ltac:(lia) ltac:(unfold is_size_t; lia))
    as ([_ Hexact] & _).
  apply Hexact. lia.
Defined.

(** X7: on every [std::size_t] length the way there and back gives
    [n mod 2^(w-1)]: the length itself below [2^(w-1)], and the length less
    [2^(w-1)] from there on. *)
Theorem size_unesc_esc_mod_half (w n : Z) :
  2 <= w →
  is_size_t w n →
  size_unesc_bin w (size_esc_bin w n) = n mod 2 ^ (w - 1).
Proof.
  intros Hw [Hn0 Hn].
  pose proof (pow2_half w ltac:(lia)) as Hhalf.
  pose proof (pow2_pos (w - 1) ltac:(lia)) as Hpos.
  rewrite size_unesc_esc_mod.
  destruct (Z.lt_ge_cases n (2 ^ (w - 1))) as [Hlow|Hhigh].
  - rewrite !Z.mod_small by lia.
    symmetry; apply Z.div_unique with (r := 1); lia.
  - rewrite <- (Z.mod_unique n (2 ^ (w - 1)) 1 (n - 2 ^ (w - 1))) by lia.
    rewrite <- (Z.mod_unique (2 * n + 1) (2 ^ w) 1 (2 * n + 1 - 2 ^ w)) by lia.
    symmetry; apply Z.div_unique with (r := 1); lia.
Qed.

Lemma size_unesc_esc_mod_half_witness :
  size_unesc_bin 64 (size_esc_bin 64 (2 ^ 63 + 5)) = (2 ^ 63 + 5) mod 2 ^ (64 - 1).
Proof.
  apply (size_unesc_esc_mod_half 64 (2 ^ 63 + 5)); [lia|].
  unfold is_size_t; lia.
Defined.

(** X8: without the terminating zero, as [size_unesc_bin] asks for its
    argument, the escaped size leads back to the length: for every [n] below
    [2^(w-1)], [size_unesc_bin(size_esc_bin(n) - 1) = n]. *)
Theorem size_unesc_esc_without_terminator (w n : Z) :
  2 <= w →
  0 <= n < 2 ^ (w - 1) →
  size_unesc_bin w (size_t_sub w (size_esc_bin w n) 1) = n.
Proof.
  intros Hw Hn.
  pose proof (pow2_half w ltac:(lia)) as Hhalf.
  rewrite size_esc_bin_mod.
  unfold size_unesc_bin, size_t_sub, size_t_div, size_t_wrap.
  rewrite Zminus_mod_idemp_l.
  replace ((2 + 2 * n + 1) mod 2 ^ w - 1 - 2)
    with ((2 + 2 * n + 1) mod 2 ^ w - 3) by lia.
  rewrite Zminus_mod_idemp_l.
  replace (2 + 2 * n + 1 - 3) with (n * 2) by lia.
  rewrite Z.mod_small by lia.
  apply Z.div_mul; lia.
Qed.

Lemma size_unesc_esc_without_terminator_witness :
  size_unesc_bin 64 (size_t_sub 64 (size_esc_bin 64 (2 ^ 63 - 1)) 1) = 2 ^ 63 - 1.
Proof.
  apply (size_unesc_esc_without_terminator 64 (2 ^ 63 - 1)); simpl; lia.
Defined.

(** X9: the other way round: for an escaped length [e >= 2] whose successor
    is still a [std::size_t], [size_esc_bin(size_unesc_bin(e))] is [e + 1]
    when [e] is even (the prefix and whole pairs of hex digits, plus the
    terminating zero) and [e] when it is odd. *)
Theorem size_esc_unesc (w e : Z) :
  2 <= w →
  2 <= e →
  e + 1 < 2 ^ w →
  size_esc_bin w (size_unesc_bin w e) = e + 1 - e mod 2.
Proof.
  intros Hw He Hfit.
  pose proof (pow2_half w ltac:(lia)) as Hhalf.
  pose proof (Z.div_mod (e - 2) 2 ltac:(lia)) as Hdm.
  pose proof (Z.mod_pos_bound (e - 2) 2 ltac:(lia)) as Hm.
  assert (Hpar : (e - 2) mod 2 = e mod 2).
  { replace (e - 2) with (e + (-1) * 2) by lia. apply Z.mod_add; lia. }
  rewrite size_esc_bin_mod.
  unfold size_unesc_bin, size_t_sub, size_t_div, size_t_wrap.
  rewrite (Z.mod_small (e - 2)) by lia.
  rewrite Z.mod_small by lia. lia.
Qed.

Lemma size_esc_unesc_witness :
  size_esc_bin 64 (size_unesc_bin 64 10) = 10 + 1 - 10 mod 2.
Proof. apply (size_esc_unesc 64 10); simpl; lia. Defined.

(** ** [ssize] *)

Lemma static_cast_signed_low (W : positive) (n : Z) :
  0 <= n < 2 ^ (Z.pos W - 1) → static_cast (t_int true W) n = n.
Proof.
  intros Hn. pose proof (pow2_double W). simpl. rewrite Z.mod_small; lia.
Qed.

Lemma static_cast_signed_high (W : positive) (n : Z) :
  2 ^ (Z.pos W - 1) <= n < 2 ^ Z.pos W →
  static_cast (t_int true W) n = n - 2 ^ Z.pos W.
Proof.
  intros Hn. pose proof (pow2_double W). simpl.
  rewrite <- (Z.mod_unique (n + 2 ^ (Z.pos W - 1)) (2 ^ Z.pos W) 1
                (n - 2 ^ (Z.pos W - 1))); lia.
Qed.

(** X10: with [W] the width of the type that [ssize] returns (at least the
    width [w] of the size type: the common type of [std::ptrdiff_t] and the
    signed size type under [std::ssize], the signed size type itself
    otherwise), [ssize(c)] is the size of [c] as long as that is below
    [2^(W-1)], so always when [W] is wider than the size type; from
    [2^(W-1)] on, which needs [W = w], it is the negative number
    [size - 2^w].  Either way it is a value of the returned type and casts
    back to the size. *)
Theorem ssize_of_size (body : ssize_body) (w : positive) (n : Z) :
  0 <= n < 2 ^ Z.pos w →
  (w <= ssize_width body w)%positive →
  (n < 2 ^ (Z.pos (ssize_width body w) - 1) → ssize body w n = n)
  ∧ ((w < ssize_width body w)%positive → ssize body w n = n)
  ∧ (2 ^ (Z.pos (ssize_width body w) - 1) <= n →
     ssize_width body w = w ∧ ssize body w n = n - 2 ^ Z.pos w)
  ∧ representable (t_int true (ssize_width body w)) (ssize body w n)
  ∧ static_cast (t_int false w) (ssize body w n) = n.
Proof.
  intros Hn Hwide.
  assert (Hcast : ssize body w n = static_cast (t_int true (ssize_width body w)) n)
    by now destruct body.
  set (W := ssize_width body w) in *.
  pose proof (pow2_double W) as Hd.
  pose proof (pow2_double w) as Hdw.
  pose proof (pow2_pos (Z.pos W - 1) ltac:(lia)) as Hp.
  assert (Hmono : (w < W)%positive → 2 ^ Z.pos w <= 2 ^ (Z.pos W - 1))
    by (intros Hlt; apply pow2_mono; lia).
  assert (Hlow : n < 2 ^ (Z.pos W - 1) → ssize body w n = n).
  { intros Hlt. rewrite Hcast. apply static_cast_signed_low. lia. }
  assert (Hsame : 2 ^ (Z.pos W - 1) <= n → W = w).
  { intros Hge. destruct (Pos.lt_total w W) as [Hlt|[Heq|Hgt]];
      [specialize (Hmono Hlt); lia | now symmetry | lia]. }
  assert (Hhigh : 2 ^ (Z.pos W - 1) <= n → ssize body w n = n - 2 ^ Z.pos w).
  { intros Hge. rewrite Hcast. pose proof (Hsame Hge) as Heq.
    rewrite static_cast_signed_high by (rewrite Heq in *; lia).
    now rewrite Heq. }
  split; [exact Hlow|].
  split; [intros Hlt; apply Hlow; specialize (Hmono Hlt); lia|].
  split; [intros Hge; split; [now apply Hsame | now apply Hhigh]|].
  destruct (Z.lt_ge_cases n (2 ^ (Z.pos W - 1))) as [Hlt|Hge].
  - rewrite (Hlow Hlt). split.
    + unfold representable; simpl; lia.
    + simpl. apply Z.mod_small; lia.
  - rewrite (Hhigh Hge). pose proof (Hsame Hge) as Heq. split.
    + unfold representable; simpl. rewrite Heq in *. lia.
    + simpl. symmetry; apply (Z.mod_unique _ _ (-1)); lia.
Qed.

Lemma ssize_of_size_witness :
  ssize (std_ssize 64) 8 200 = 200
  ∧ ssize own_ssize 8 200 = 200 - 2 ^ 8
  ∧ ssize own_ssize 64 5 = 5.
Proof.
  destruct (ssize_of_size (std_ssize 64) 8 200 ltac:(lia) ltac:(simpl; lia))
    as (_ & Hwider & _).
  destruct (ssize_of_size own_ssize 8 200 ltac:(lia) ltac:(simpl; lia))
    as (_ & _ & Hhigh & _).
  destruct (ssize_of_size own_ssize 64 5 ltac:(lia) ltac:(simpl; lia))
    as (Hlow & _).
  split; [apply Hwider; simpl; lia|].
  split; [apply Hhigh; simpl; lia | apply Hlow; simpl; lia].
Defined.

(** ** Construction, copying and assignment of [result] *)

Section assignment.
Context {A : Type}.
Variable proj : result → option nat.

(** A counted owner's block exists and is owned at least once. *)
Lemma owner_block (rs : gmap nat result) (blocks : gmap nat (control_block A))
    (r b : nat) (R : result) :
  (card (owners proj b rs) ≤ count_of blocks b)%nat →
  rs !! r = Some R → proj R = Some b →
  ∃ cb n, blocks !! b = Some cb ∧ use_count cb = S n.
Proof.
  intros Hcount Hr HR.
  assert (Hpos : card (owners proj b rs) ≠ O).
  { apply (map_size_ne_0_lookup_2 _ r). exists R. now apply owners_lookup. }
  unfold count_of in Hcount. destruct (blocks !! b) as [cb|]; [|lia].
  destruct (use_count cb) as [|n] eqn:Hn; [lia|]. now exists cb, n.
Qed.

(** Taking a copy of a pointer and letting it go again changes nothing. *)
Lemma release_copy (blocks : gmap nat (control_block A)) (b : nat)
    (cb : control_block A) (n : nat) :
  blocks !! b = Some cb → use_count cb = S n →
  sp_release (sp_copy blocks (Some b)) (Some b) = (blocks, None).
Proof.
  intros Hb Hn. unfold sp_release, sp_copy.
  rewrite lookup_alter_eq, Hb. simpl. rewrite Hn. f_equal.
  rewrite insert_alter_eq. apply insert_id.
  rewrite Hb, <- Hn. now destruct cb.
Qed.

(** The owners of a block after the object at [c] has been given new
    members. *)
Lemma owners_replace (rs : gmap nat result) (c b : nat) (C X : result) :
  rs !! c = Some C →
  card (owners proj b (<[c := X]> rs))
  = (if decide (proj X = Some b) then S else id)
      (if decide (proj C = Some b) then pred (card (owners proj b rs))
       else card (owners proj b rs)).
Proof.
  intros Hc. rewrite <- insert_delete_eq.
  rewrite owners_new by apply lookup_delete_eq.
  rewrite (owners_drop proj rs c b C Hc).
  now destruct (decide (proj X = Some b)).
Qed.

(** The use counts after [sp_assign]. *)
Lemma count_of_assign (blocks : gmap nat (control_block A))
    (target source : option nat) (b : nat) :
  (source = Some b → count_of blocks b ≠ O) →
  count_of (sp_assign blocks target source).1 b
  = (if decide (target = Some b) then pred else id)
      ((if decide (source = Some b) then S else id) (count_of blocks b)).
Proof.
  intros Hexists. unfold sp_assign.
  rewrite count_of_release, count_of_copy.
  destruct (decide (source = Some b)) as [Hs|Hs];
    [|now destruct (decide (target = Some b))].
  specialize (Hexists Hs). unfold count_of in *.
  destruct (blocks !! b); [|congruence].
  now destruct (decide (target = Some b)).
Qed.

(** What the source pointer refers to is the same after the assignment. *)
Lemma assign_keeps_source (blocks : gmap nat (control_block A))
    (target source : option nat) :
  (∀ b, source = Some b → count_of blocks b ≠ O) →
  sp_get (sp_assign blocks target source).1 source = sp_get blocks source.
Proof.
  intros Hexists. destruct source as [b|]; [|reflexivity].
  specialize (Hexists b eq_refl). unfold count_of in Hexists.
  destruct (blocks !! b) as [cb|] eqn:Hb; [|congruence].
  unfold sp_assign, sp_release, sp_copy, sp_get.
  destruct target as [b'|]; simpl.
  - destruct (decide (b' = b)) as [->|Hne].
    + rewrite lookup_alter_eq, Hb. simpl.
      destruct (use_count cb) as [|n]; [congruence|]. simpl.
      now rewrite lookup_insert_eq.
    + rewrite lookup_alter_ne by done.
      destruct (blocks !! b') as [cb'|]; simpl.
      * destruct (use_count cb') as [|[|n]]; simpl;
          rewrite ?lookup_delete_ne, ?lookup_insert_ne by done;
          now rewrite lookup_alter_eq, Hb.
      * now rewrite lookup_alter_eq, Hb.
  - now rewrite lookup_alter_eq, Hb.
Qed.
End assignment.

Lemma result_assign_state (st : program_state) (this rhs : nat) (C R : result) :
  results st !! this = Some C → results st !! rhs = Some R →
  result_assign this rhs st
  = (Returned tt,
     State (<[this := Result (m_data R) (m_query R) (m_encoding R)]> (results st))
       (sp_assign (data_blocks st) (m_data C) (m_data R)).1
       (sp_assign (query_blocks st) (m_query C) (m_query R)).1
       (match (sp_assign (data_blocks st) (m_data C) (m_data R)).2 with
        | Some ptr => ptr :: cleared st
        | None => cleared st
        end)).
Proof.
  intros Hc Hr. unfold result_assign. rewrite Hc, Hr.
  destruct (sp_assign (data_blocks st) (m_data C) (m_data R)) as [dblocks [ptr|]];
    simpl; destruct (sp_assign (query_blocks st) (m_query C) (m_query R));
    reflexivity.
Qed.

Lemma consistent_count_data (st : program_state) (r b : nat) (R : result) :
  consistent st → results st !! r = Some R → m_data R = Some b →
  count_of (data_blocks st) b ≠ O.
Proof.
  intros Hwf Hr HR.
  destruct (owner_block m_data (results st) (data_blocks st) r b R
              (consistent_data st Hwf b) Hr HR) as (cb & n & Hb & Hn).
  unfold count_of. rewrite Hb, Hn. discriminate.
Qed.

Lemma consistent_count_query (st : program_state) (r b : nat) (R : result) :
  consistent st → results st !! r = Some R → m_query R = Some b →
  count_of (query_blocks st) b ≠ O.
Proof.
  intros Hwf Hr HR.
  destruct (owner_block m_query (results st) (query_blocks st) r b R
              (consistent_query st Hwf b) Hr HR) as (cb & n & Hb & Hn).
  unfold count_of. rewrite Hb, Hn. discriminate.
Qed.

Lemma result_eta (R : result) :
  Result (m_data R) (m_query R) (m_encoding R) = R.
Proof. now destruct R. Qed.

Lemma state_eta (st : program_state) :
  State (results st) (data_blocks st) (query_blocks st) (cleared st) = st.
Proof. now destruct st. Qed.

Lemma sp_get_copy {A : Type} (blocks : gmap nat (control_block A))
    (p q : option nat) :
  sp_get (sp_copy blocks p) q = sp_get blocks q.
Proof.
  destruct p as [b|]; [|reflexivity]. destruct q as [b'|]; [|reflexivity].
  unfold sp_get, sp_copy. simpl.
  destruct (decide (b = b')) as [->|Hne].
  - rewrite lookup_alter_eq. now destruct (blocks !! b').
  - now rewrite lookup_alter_ne.
Qed.

Lemma copy_counts {A : Type} (blocks : gmap nat (control_block A))
    (p : option nat) (b : nat) :
  (count_of blocks b ≤ count_of (sp_copy blocks p) b)%nat.
Proof.
  rewrite count_of_copy. case_decide; [|lia].
  unfold count_of. destruct (blocks !! b); lia.
Qed.

(** X11: the default constructor makes a data pointer with a control block of
    its own, new and owned once, around a null pointer: the new result tests
    as null ([operator!] true, [operator bool] false), nothing else in the
    state changes, and the reference counts stay right. *)
Theorem result_default_fresh (st : program_state) (this : nat) :
  consistent st →
  results st !! this = None →
  ∃ b, data_blocks st !! b = None
       ∧ result_default this st
         = (Returned tt,
            State (<[this := Result (Some b) None MONOBYTE]> (results st))
              (<[b := ControlBlock None 1]> (data_blocks st))
              (query_blocks st) (cleared st))
       ∧ operator_not (Result (Some b) None MONOBYTE) (result_default this st).2
         = (Returned true, (result_default this st).2)
       ∧ operator_bool (Result (Some b) None MONOBYTE) (result_default this st).2
         = (Returned false, (result_default this st).2)
       ∧ consistent (result_default this st).2.
Proof.
  intros Hwf Hfree. exists (fresh (dom (data_blocks st))).
  assert (Hb : data_blocks st !! fresh (dom (data_blocks st)) = None)
    by apply not_elem_of_dom, is_fresh.
  split; [exact Hb|]. split; [reflexivity|].
  split; [|split; [|now apply result_default_consistent]].
  - unfold operator_not, M_bind, buffer_of, sp_get. simpl.
    now rewrite lookup_insert_eq.
  - unfold operator_bool, M_bind, buffer_of, sp_get. simpl.
    now rewrite lookup_insert_eq.
Qed.

Lemma result_default_fresh_witness :
  ∃ b, result_default 0%nat (State ∅ ∅ ∅ [])
       = (Returned tt,
          State (<[0%nat := Result (Some b) None MONOBYTE]> ∅)
            (<[b := ControlBlock None 1]> ∅) ∅ []).
Proof.
  destruct (result_default_fresh (State ∅ ∅ ∅ []) 0%nat empty_consistent
              (lookup_empty _)) as (b & _ & Hrun & _).
  exists b. exact Hrun.
Defined.

(** X12: clearing a default-constructed result calls the cleanup callback,
    on the null pointer: the data pointer was made with the callback as its
    deleter, and it owns its control block even though the pointer is null.
    The control block is gone afterwards. *)
Theorem clear_default_constructed (st : program_state) (this : nat) :
  results st !! this = None →
  clear this (result_default this st).2
  = (Returned tt,
     State (<[this := Result None None MONOBYTE]> (results st))
       (data_blocks st) (query_blocks st) (None :: cleared st)).
Proof.
  intros Hfree.
  assert (Hb : data_blocks st !! fresh (dom (data_blocks st)) = None)
    by apply not_elem_of_dom, is_fresh.
  rewrite (clear_state _ this
             (Result (Some (fresh (dom (data_blocks st)))) None MONOBYTE))
    by (simpl; apply lookup_insert_eq).
  unfold cleared_after. simpl. rewrite !lookup_insert_eq. simpl.
  now rewrite insert_insert_eq, delete_insert_id.
Qed.

Lemma clear_default_constructed_witness :
  cleared (clear 2%nat (result_default 2%nat example_state).2).2 = [None].
Proof.
  now rewrite (clear_default_constructed example_state 2%nat eq_refl).
Defined.

(** X13: copy construction shares: the new object has the members of the
    one it was copied from and refers to the same buffer, whose use count
    has grown by one; no other object changes, the cleanup callback is not
    called, and the reference counts stay right. *)
Theorem result_copy_shares (st : program_state) (this r : nat) (R : result) :
  consistent st →
  results st !! this = None →
  results st !! r = Some R →
  results (result_copy this R st).2 !! this = Some R
  ∧ (∀ o, o ≠ this →
          results (result_copy this R st).2 !! o = results st !! o)
  ∧ (∀ p, sp_get (data_blocks (result_copy this R st).2) p
          = sp_get (data_blocks st) p)
  ∧ (∀ b, m_data R = Some b →
          count_of (data_blocks (result_copy this R st).2) b
          = S (count_of (data_blocks st) b))
  ∧ (∀ b, m_data R ≠ Some b →
          count_of (data_blocks (result_copy this R st).2) b
          = count_of (data_blocks st) b)
  ∧ cleared (result_copy this R st).2 = cleared st
  ∧ consistent (result_copy this R st).2.
Proof.
  intros Hwf Hfree Hr. unfold result_copy. simpl.
  split; [now rewrite lookup_insert_eq, result_eta|].
  split; [intros o Hne; now rewrite lookup_insert_ne|].
  split; [intros p; apply sp_get_copy|].
  split; [|split].
  - intros b Hb. rewrite count_of_copy, decide_True by done.
    pose proof (consistent_count_data st r b R Hwf Hr Hb) as Hpos.
    unfold count_of in *. destruct (data_blocks st !! b); [reflexivity | congruence].
  - intros b Hb. now rewrite count_of_copy, decide_False.
  - split; [reflexivity|].
    now apply (result_copy_consistent st this r R).
Qed.

Lemma result_copy_shares_witness :
  results (result_copy 2%nat example_result example_state).2 !! 2%nat
  = Some example_result
  ∧ count_of (data_blocks (result_copy 2%nat example_result example_state).2) 0%nat
    = 3%nat.
Proof.
  destruct (result_copy_shares example_state 2%nat 0%nat example_result
              example_consistent eq_refl eq_refl) as (Hobj & _ & _ & Hcount & _).
  split; [exact Hobj|]. now rewrite (Hcount 0%nat eq_refl).
Defined.

(** X14: a copy that is destroyed again leaves no trace: copy construction
    followed by the destructor of the copy gives back the state as it
    was. *)
Theorem copy_then_destroy (st : program_state) (this r : nat) (R : result) :
  consistent st →
  results st !! this = None →
  results st !! r = Some R →
  result_destroy this (result_copy this R st).2 = (Returned tt, st).
Proof.
  intros Hwf Hfree Hr.
  assert (Hdata : sp_release (sp_copy (data_blocks st) (m_data R)) (m_data R)
                  = (data_blocks st, None)).
  { destruct (m_data R) as [b|] eqn:Hb; [|reflexivity].
    destruct (owner_block m_data (results st) (data_blocks st) r b R
                (consistent_data st Hwf b) Hr Hb) as (cb & n & Hcb & Hn).
    now apply (release_copy _ b cb n). }
  assert (Hquery : sp_release (sp_copy (query_blocks st) (m_query R)) (m_query R)
                   = (query_blocks st, None)).
  { destruct (m_query R) as [b|] eqn:Hb; [|reflexivity].
    destruct (owner_block m_query (results st) (query_blocks st) r b R
                (consistent_query st Hwf b) Hr Hb) as (cb & n & Hcb & Hn).
    now apply (release_copy _ b cb n). }
  rewrite (result_destroy_state _ this
             (Result (m_data R) (m_query R) (m_encoding R)))
    by (simpl; apply lookup_insert_eq).
  unfold cleared_after. simpl. rewrite Hdata, Hquery. simpl.
  now rewrite delete_insert_id, state_eta.
Qed.

Lemma copy_then_destroy_witness :
  result_destroy 2%nat (result_copy 2%nat example_result example_state).2
  = (Returned tt, example_state).
Proof.
  exact (copy_then_destroy example_state 2%nat 0%nat example_result
           example_consistent eq_refl eq_refl).
Defined.

(** X15: copy assignment makes the object a copy of the right-hand side:
    afterwards it has that object's members, what the right-hand side and
    every other object refer to is as before, and the reference counts stay
    right.  The cleanup callback is called only if the object assigned to
    was the last owner of its old buffer, and then on that buffer, which
    the right-hand side does not share. *)
Theorem result_assign_shares (st : program_state) (this r : nat) (C R : result) :
  consistent st →
  results st !! this = Some C →
  results st !! r = Some R →
  (result_assign this r st).1 = Returned tt
  ∧ results (result_assign this r st).2 !! this = Some R
  ∧ (∀ o, o ≠ this →
          results (result_assign this r st).2 !! o = results st !! o)
  ∧ sp_get (data_blocks (result_assign this r st).2) (m_data R)
    = sp_get (data_blocks st) (m_data R)
  ∧ (∀ o O, o ≠ this → results st !! o = Some O →
            sp_get (data_blocks (result_assign this r st).2) (m_data O)
            = sp_get (data_blocks st) (m_data O))
  ∧ (cleared (result_assign this r st).2 = cleared st
     ∨ ∃ b cb, m_data C = Some b ∧ data_blocks st !! b = Some cb
               ∧ cleared (result_assign this r st).2 = managed cb :: cleared st
               ∧ m_data R ≠ Some b
               ∧ ∀ o O, results st !! o = Some O → o ≠ this → m_data O ≠ Some b)
  ∧ consistent (result_assign this r st).2.
Proof.
  intros Hwf Hc Hr.
  pose proof Hwf as [Hd Hq].
  rewrite (result_assign_state st this r C R Hc Hr). simpl.
  assert (Hcopied : ∀ b, (card (owners m_data b (results st))
                          ≤ count_of (sp_copy (data_blocks st) (m_data R)) b)%nat).
  { intros b. rewrite <- (Hd b). apply copy_counts. }
  split; [reflexivity|].
  split; [now rewrite lookup_insert_eq, result_eta|].
  split; [intros o Hne; now rewrite lookup_insert_ne|].
  split; [|split; [|split; [|split]]].
  - apply assign_keeps_source. intros b Hb.
    now apply (consistent_count_data st r b R).
  - intros o O Hne Ho. unfold sp_assign.
    rewrite (release_frame m_data (results st) _ o this O C) by done.
    apply sp_get_copy.
  - unfold sp_assign.
    destruct (sp_release (sp_copy (data_blocks st) (m_data R)) (m_data C)).2
      as [ptr|] eqn:Hdead; [right | now left].
    destruct (release_deleter_last m_data (results st) _ this C ptr
                Hcopied Hc Hdead) as ((b & cb & HC & Hcb & Hptr) & Hsole).
    assert (HR : m_data R ≠ Some b).
    { destruct (decide (r = this)) as [->|Hne].
      - rewrite Hc in Hr. injection Hr as <-. intros _.
        destruct (owner_block m_data (results st) (data_blocks st) this b C
                    (consistent_data st Hwf b) Hc HC) as (cb0 & n & Hcb0 & Hn).
        rewrite HC, (release_copy _ b cb0 n Hcb0 Hn) in Hdead. discriminate.
      - rewrite <- HC. now apply (Hsole r R). }
    assert (Hsame : data_blocks st !! b = Some cb).
    { rewrite <- Hcb. unfold sp_copy. destruct (m_data R) as [b'|]; [|reflexivity].
      rewrite lookup_alter_ne; [reflexivity | congruence]. }
    exists b, cb. rewrite Hptr.
    split; [exact HC|]. split; [exact Hsame|]. split; [reflexivity|].
    split; [exact HR|].
    intros o O Ho Hne. rewrite <- HC. now apply (Hsole o O).
  - intros b. simpl. rewrite (owners_replace m_data _ this b C) by done. simpl.
    rewrite count_of_assign
      by (intros Hb; now apply (consistent_count_data st r b R)).
    rewrite (Hd b).
    destruct (decide (m_data R = Some b)) as [HR|HR];
      destruct (decide (m_data C = Some b)) as [HC|HC]; try reflexivity.
    simpl.
    assert (card (owners m_data b (results st)) ≠ O); [|lia].
    apply (map_size_ne_0_lookup_2 _ this). exists C. now apply owners_lookup.
  - intros b. simpl. rewrite (owners_replace m_query _ this b C) by done. simpl.
    rewrite count_of_assign
      by (intros Hb; now apply (consistent_count_query st r b R)).
    specialize (Hq b).
    destruct (decide (m_query R = Some b)) as [HR|HR];
      destruct (decide (m_query C = Some b)) as [HC|HC]; simpl; try lia.
    assert (card (owners m_query b (results st)) ≠ O); [|lia].
    apply (map_size_ne_0_lookup_2 _ this). exists C. now apply owners_lookup.
Qed.

Lemma result_assign_shares_witness :
  results (result_assign 1%nat 0%nat example_state).2 !! 1%nat
  = Some example_result
  ∧ consistent (result_assign 1%nat 0%nat example_state).2.
Proof.
  destruct (result_assign_shares example_state 1%nat 0%nat example_result
              example_result example_consistent eq_refl eq_refl)
    as (_ & Hobj & _ & _ & _ & _ & Hwf).
  split; [exact Hobj | exact Hwf].
Defined.

(** X16: assigning a result to itself changes nothing: the use counts go up
    and down again, and no cleanup is called. *)
Theorem result_assign_self (st : program_state) (this : nat) (C : result) :
  consistent st →
  results st !! this = Some C →
  result_assign this this st = (Returned tt, st).
Proof.
  intros Hwf Hc.
  assert (Hdata : sp_assign (data_blocks st) (m_data C) (m_data C)
                  = (data_blocks st, None)).
  { unfold sp_assign. destruct (m_data C) as [b|] eqn:Hb; [|reflexivity].
    destruct (owner_block m_data (results st) (data_blocks st) this b C
                (consistent_data st Hwf b) Hc Hb) as (cb & n & Hcb & Hn).
    now apply (release_copy _ b cb n). }
  assert (Hquery : sp_assign (query_blocks st) (m_query C) (m_query C)
                   = (query_blocks st, None)).
  { unfold sp_assign. destruct (m_query C) as [b|] eqn:Hb; [|reflexivity].
    destruct (owner_block m_query (results st) (query_blocks st) this b C
                (consistent_query st Hwf b) Hc Hb) as (cb & n & Hcb & Hn).
    now apply (release_copy _ b cb n). }
  rewrite (result_assign_state st this this C C Hc Hc), Hdata, Hquery. simpl.
  rewrite result_eta, insert_id by done. now rewrite state_eta.
Qed.

Lemma result_assign_self_witness :
  result_assign 1%nat 1%nat example_state = (Returned tt, example_state).
Proof.
  exact (result_assign_self example_state 1%nat example_result
           example_consistent eq_refl).
Defined.

(** X17: [clear()] is idempotent: a second [clear()] leaves the state as the
    first one left it.  After [clear()] the result tests as null, and
    neither a further [clear()] nor the destructor calls the cleanup
    callback for it again. *)
Theorem clear_twice (st : program_state) (c : nat) :
  clear c (clear c st).2 = (Returned tt, (clear c st).2)
  ∧ cleared (result_destroy c (clear c st).2).2 = cleared (clear c st).2
  ∧ data_blocks (result_destroy c (clear c st).2).2 = data_blocks (clear c st).2
  ∧ (∀ C, results (clear c st).2 !! c = Some C →
          operator_not C (clear c st).2 = (Returned true, (clear c st).2)).
Proof.
  destruct (results st !! c) as [C|] eqn:Hc.
  - rewrite (clear_state st c C Hc). simpl.
    set (st1 := State _ _ _ _).
    assert (Hc1 : results st1 !! c = Some (Result None None (m_encoding C)))
      by apply lookup_insert_eq.
    rewrite (clear_state st1 c _ Hc1), (result_destroy_state st1 c _ Hc1).
    unfold cleared_after. simpl.
    split; [now rewrite insert_insert_eq|].
    split; [reflexivity|]. split; [reflexivity|].
    intros C' HC'.
    assert (C' = Result None None (m_encoding C)) as ->; [|reflexivity].
    unfold st1 in *. simpl in *. rewrite lookup_insert_eq in HC'. congruence.
  - assert (Hclear : clear c st = (Returned tt, st))
      by (unfold clear; now rewrite Hc).
    assert (Hdestroy : result_destroy c st = (Returned tt, st))
      by (unfold result_destroy; now rewrite Hc).
    rewrite !Hclear. simpl. rewrite Hclear, Hdestroy. simpl.
    split; [reflexivity|]. split; [reflexivity|]. split; [reflexivity|].
    intros C' HC'. rewrite Hc in HC'. discriminate.
Qed.

(** X18: [query_ptr()] hands out one more owner of the query text and
    nothing else: the objects, the buffers and the text that every pointer
    refers to are as before, the reference counts stay right, and once the
    caller lets go of the pointer the state is what it was before the
    call. *)
Theorem query_ptr_borrows (st : program_state) (r : nat) (R : result) :
  consistent st →
  results st !! r = Some R →
  (query_ptr R st).1 = Returned (m_query R)
  ∧ results (query_ptr R st).2 = results st
  ∧ data_blocks (query_ptr R st).2 = data_blocks st
  ∧ cleared (query_ptr R st).2 = cleared st
  ∧ (∀ p, sp_get (query_blocks (query_ptr R st).2) p
          = sp_get (query_blocks st) p)
  ∧ consistent (query_ptr R st).2
  ∧ drop_query_ptr (m_query R) (query_ptr R st).2 = (Returned tt, st).
Proof.
  intros Hwf Hr. pose proof Hwf as [Hd Hq]. unfold query_ptr. simpl.
  split; [reflexivity|]. split; [reflexivity|]. split; [reflexivity|].
  split; [reflexivity|]. split; [intros p; apply sp_get_copy|].
  split.
  - split; simpl; [exact Hd|]. intros b.
    etransitivity; [apply Hq | apply copy_counts].
  - unfold drop_query_ptr. simpl.
    assert (Hquery : sp_release (sp_copy (query_blocks st) (m_query R)) (m_query R)
                     = (query_blocks st, None)).
    { destruct (m_query R) as [b|] eqn:Hb; [|reflexivity].
      destruct (owner_block m_query (results st) (query_blocks st) r b R
                  (Hq b) Hr Hb) as (cb & n & Hcb & Hn).
      now apply (release_copy _ b cb n). }
    rewrite Hquery. simpl. now rewrite state_eta.
Qed.

Lemma query_ptr_borrows_witness :
  (query_ptr example_result example_state).1 = Returned (Some 0%nat)
  ∧ count_of (query_blocks (query_ptr example_result example_state).2) 0%nat
    = 3%nat
  ∧ drop_query_ptr (Some 0%nat) (query_ptr example_result example_state).2
    = (Returned tt, example_state).
Proof.
  destruct (query_ptr_borrows example_state 0%nat example_result
              example_consistent eq_refl) as (Hret & _ & _ & _ & _ & _ & Hdrop).
  split; [exact Hret|]. split; [reflexivity | exact Hdrop].
Defined.

(** X19: the destructor takes away its own object only: the object is gone,
    every other live object keeps its members and what its pointers refer
    to, and the reference counts stay right. *)
Theorem result_destroy_frame (st : program_state) (c : nat) (C : result) :
  consistent st →
  results st !! c = Some C →
  (result_destroy c st).1 = Returned tt
  ∧ results (result_destroy c st).2 !! c = None
  ∧ (∀ r R, r ≠ c → results st !! r = Some R →
       results (result_destroy c st).2 !! r = Some R
       ∧ sp_get (data_blocks (result_destroy c st).2) (m_data R)
         = sp_get (data_blocks st) (m_data R)
       ∧ sp_get (query_blocks (result_destroy c st).2) (m_query R)
         = sp_get (query_blocks st) (m_query R))
  ∧ consistent (result_destroy c st).2.
Proof.
  intros Hwf Hc.
  pose proof (result_destroy_consistent st c Hwf) as Hwf'.
  rewrite (result_destroy_state st c C Hc) in *. simpl.
  split; [reflexivity|]. split; [apply lookup_delete_eq|].
  split; [|exact Hwf'].
  intros r R Hne Hr.
  split; [now rewrite lookup_delete_ne|]. split.
  - apply (release_frame m_data (results st) _ r c R C); try done.
    now apply consistent_data.
  - apply (release_frame m_query (results st) _ r c R C); try done.
    now apply consistent_query.
Qed.

Lemma result_destroy_frame_witness :
  results (result_destroy 1%nat example_state).2 !! 1%nat = None
  ∧ results (result_destroy 1%nat example_state).2 !! 0%nat = Some example_result
  ∧ sp_get (data_blocks (result_destroy 1%nat example_state).2) (Some 0%nat)
    = Some example_buffer.
Proof.
  destruct (result_destroy_frame example_state 1%nat example_result
              example_consistent eq_refl) as (_ & Hgone & Hframe & _).
  destruct (Hframe 0%nat example_result ltac:(lia) eq_refl) as (Hobj & Hbuf & _).
  split; [exact Hgone|]. split; [exact Hobj|].
  etransitivity; [exact Hbuf | reflexivity].
Defined.

(** ** [check_cast] outside the signed pairs *)

(** X20: when the source type or the target type is unsigned, [check_cast]
    returns exactly for the values that fit the target type, and returns
    them unchanged. *)
Theorem check_cast_exact_with_unsigned (TO FROM : integral) (v : Z) (d : string) :
  is_same_bool FROM = false →
  representable FROM v →
  is_signed_v FROM = false ∨ is_signed_v TO = false →
  (check_cast TO FROM v d = Returned v ↔ representable TO v)
  ∧ (∀ r, check_cast TO FROM v d = Returned r → r = v)
  ∧ (¬ representable TO v → ∃ e, check_cast TO FROM v d = Thrown e).
Proof.
  intros Hnb Hfrom Hunsigned.
  assert (Hfit : representable TO v → check_cast TO FROM v d = Returned v).
  { intros Hto. apply check_cast_in_range; try assumption.
    destruct Hunsigned as [Hu|Hu]; [left | now right; left].
    apply unsigned_lowest in Hu. unfold representable in Hfrom. lia. }
  split; [split; [|exact Hfit]|split].
  - intros Hret. now apply (check_cast_returned TO FROM v v d).
  - intros r Hret. now apply (check_cast_returned TO FROM v r d).
  - intros Hno. destruct (check_cast TO FROM v d) as [r|e] eqn:Hrun.
    + destruct Hno. now apply (check_cast_returned TO FROM v r d).
    + now exists e.
Qed.

Lemma check_cast_exact_with_unsigned_witness :
  (check_cast uint int 5 "n" = Returned 5 ↔ representable uint 5)
  ∧ ∃ e, check_cast schar uint 200 "n" = Thrown e.
Proof.
  assert (Hint : representable int 5) by (unfold representable; simpl; lia).
  assert (Huint : representable uint 200) by (unfold representable; simpl; lia).
  destruct (check_cast_exact_with_unsigned uint int 5 "n" eq_refl Hint
              (or_intror eq_refl)) as (Hiff & _).
  destruct (check_cast_exact_with_unsigned schar uint 200 "n" eq_refl Huint
              (or_introl eq_refl)) as (_ & _ & Hfail).
  split; [exact Hiff|]. apply Hfail. unfold representable; simpl; lia.
Defined.
